(** * Conductance based LIF neuron: one Euler step (norse/torch/functional/coba_lif.py)

    Shallow embedding of [coba_lif_step] and [coba_lif_feed_forward_step].

    Data model.
    - A tensor of shape [batch, features] is a matrix ['M[R]_(batch, features)]
      over a real field [R]; shapes are carried by the types, so the shape
      errors torch raises on ill-shaped arguments have no counterpart here.
    - Tensor entries are elements of an ordered field: the arithmetic of the
      code is read as exact arithmetic.  Rounding, overflow, infinities and
      NaN of IEEE floats are outside this model.
    - The fields of [CobaLIFParameters] are 0-dimensional tensors in the
      source (the defaults are built with [torch.as_tensor] of a number);
      they are scalars of [R] here and broadcast against state tensors.
    - [threshold] lives in norse/torch/functional/threshold.py; the step
      functions take it as an argument, and [threshold_fwd] below gives the
      forward value its contract prescribes. *)

From HB Require Import structures.
From Stdlib Require Import String.
From mathcomp Require Import boot order algebra.

Set Implicit Arguments.
Unset Strict Implicit.
Unset Printing Implicit Defensive.

Import GRing.Theory Num.Theory Order.Theory.
Local Open Scope ring_scope.

(** ** Tensor operations used by the source *)

Section TensorOps.

Variable R : realFieldType.

(** [torch.nn.functional.relu], on one entry and on a tensor. *)
Definition relu1 (a : R) : R := Num.max a 0.

Definition relu (m n : nat) (A : 'M[R]_(m, n)) : 'M[R]_(m, n) :=
  map_mx relu1 A.

(** [torch.nn.functional.linear(input, weight)] without bias:
    [input @ weight.T]. *)
Definition linear (b i n : nat) (x : 'M[R]_(b, i)) (W : 'M[R]_(n, i))
  : 'M[R]_(b, n) :=
  x *m W^T.

(** [A * B] on two tensors of one shape: the entrywise product. *)
Definition tmul (m n : nat) (A B : 'M[R]_(m, n)) : 'M[R]_(m, n) :=
  map2_mx *%R A B.

(** A 0-dimensional tensor broadcast to a shape. *)
Definition bcast (m n : nat) (c : R) : 'M[R]_(m, n) := const_mx c.

End TensorOps.

Notation "A .* B" := (tmul A B) (at level 40, left associativity).

(** ** State and parameters *)

Section Model.

Variable R : realFieldType.

(** [CobaLIFState]: recurrent spikes, membrane potential, excitatory and
    inhibitory input conductance. *)
Record CobaLIFState (batch neurons : nat) := mkCobaLIFState {
  z   : 'M[R]_(batch, neurons);
  v   : 'M[R]_(batch, neurons);
  g_e : 'M[R]_(batch, neurons);
  g_i : 'M[R]_(batch, neurons)
}.

(** [CobaLIFFeedForwardState]: the same without the spike term.  The field
    names of the source ([v], [g_e], [g_i]) are taken by [CobaLIFState]. *)
Record CobaLIFFeedForwardState (batch neurons : nat) :=
  mkCobaLIFFeedForwardState {
  ff_v   : 'M[R]_(batch, neurons);
  ff_g_e : 'M[R]_(batch, neurons);
  ff_g_i : 'M[R]_(batch, neurons)
}.

Record CobaLIFParameters := mkCobaLIFParameters {
  tau_syn_exc_inv : R;
  tau_syn_inh_inv : R;
  c_m_inv : R;
  g_l : R;
  e_rev_I : R;
  e_rev_E : R;
  v_rest : R;
  v_reset : R;
  v_thresh : R;
  method : string;
  alpha : R
}.

(** The default values of the fields of [CobaLIFParameters]; the decimal
    literal [0.2] is [2/10]. *)
Definition default_parameters : CobaLIFParameters :=
  {| tau_syn_exc_inv := 1 / 5%:R;
     tau_syn_inh_inv := 1 / 5%:R;
     c_m_inv := 1 / (2%:R / 10%:R);
     g_l := 1 / 20%:R * 1 / (2%:R / 10%:R);
     e_rev_I := - 100%:R;
     e_rev_E := 60%:R;
     v_rest := - 20%:R;
     v_reset := - 70%:R;
     v_thresh := - 10%:R;
     method := "heaviside"%string;
     alpha := 0 |}.

(** The default of [dt], [0.001]. *)
Definition default_dt : R := 1 / 1000%:R.

(** The type of [threshold(x, method, alpha)], at every shape. *)
Definition threshold_fn : Type :=
  forall m n : nat, 'M[R]_(m, n) -> string -> R -> 'M[R]_(m, n).

(** Modelled from the spec: [threshold] of norse/torch/functional/threshold.py
    is not part of the sources at hand.  Its contract gives the forward value
    entry by entry: [1] where [x >= 0], else [0]; [method] and [alpha] shape
    the backward gradient only. *)
Definition threshold_fwd : threshold_fn :=
  fun m n x _ _ => map_mx (fun a : R => if 0 <= a then 1 else 0) x.

Section Steps.

Variable threshold : threshold_fn.
Variables batch inputs neurons : nat.

(** ** [coba_lif_step] *)
Definition coba_lif_step
    (input_tensor : 'M[R]_(batch, inputs))
    (state : CobaLIFState batch neurons)
    (input_weights : 'M[R]_(neurons, inputs))
    (recurrent_weights : 'M[R]_(neurons, neurons))
    (parameters : CobaLIFParameters) (dt : R)
  : 'M[R]_(batch, neurons) * CobaLIFState batch neurons :=
  let dg_e := (- dt * tau_syn_exc_inv parameters) *: g_e state in
  let g_e1 := g_e state + dg_e in
  let dg_i := (- dt * tau_syn_inh_inv parameters) *: g_i state in
  let g_i1 := g_i state + dg_i in
  let g_e2 := g_e1 + linear input_tensor (relu input_weights) in
  let g_i2 := g_i1 + linear input_tensor (relu (- input_weights)) in
  let g_e3 := g_e2 + linear (z state) (relu recurrent_weights) in
  let g_i3 := g_i2 + linear (z state) (relu (- recurrent_weights)) in
  let dv :=
    (dt * c_m_inv parameters) *:
      (g_l parameters *: (bcast _ _ (v_rest parameters) - v state)
       + g_e3 .* (bcast _ _ (e_rev_E parameters) - v state)
       + g_i3 .* (bcast _ _ (e_rev_I parameters) - v state)) in
  let v1 := v state + dv in
  let z_new :=
    threshold (v1 - bcast _ _ (v_thresh parameters))
              (method parameters) (alpha parameters) in
  let v2 := (bcast _ _ 1 - z_new) .* v1
            + z_new .* bcast _ _ (v_reset parameters) in
  (z_new, mkCobaLIFState z_new v2 g_e3 g_i3).

(** ** [coba_lif_feed_forward_step] *)
Definition coba_lif_feed_forward_step
    (input_tensor : 'M[R]_(batch, neurons))
    (state : CobaLIFFeedForwardState batch neurons)
    (parameters : CobaLIFParameters) (dt : R)
  : 'M[R]_(batch, neurons) * CobaLIFFeedForwardState batch neurons :=
  let dg_e := (- dt * tau_syn_exc_inv parameters) *: ff_g_e state in
  let g_e1 := ff_g_e state + dg_e in
  let dg_i := (- dt * tau_syn_inh_inv parameters) *: ff_g_i state in
  let g_i1 := ff_g_i state + dg_i in
  let g_e2 := g_e1 + relu input_tensor in
  let g_i2 := g_i1 + relu (- input_tensor) in
  let dv :=
    (dt * c_m_inv parameters) *:
      (g_l parameters *: (bcast _ _ (v_rest parameters) - ff_v state)
       + g_e2 .* (bcast _ _ (e_rev_E parameters) - ff_v state)
       + g_i2 .* (bcast _ _ (e_rev_I parameters) - ff_v state)) in
  let v1 := ff_v state + dv in
  let z_new :=
    threshold (v1 - bcast _ _ (v_thresh parameters))
              (method parameters) (alpha parameters) in
  let v2 := (bcast _ _ 1 - z_new) .* v1
            + z_new .* bcast _ _ (v_reset parameters) in
  (z_new, mkCobaLIFFeedForwardState v2 g_e2 g_i2).

End Steps.

End Model.

(** ** The algorithm of the design, phase by phase

    The definitions of this section follow the wording of the design
    (decay, feed-forward drive, recurrent drive, voltage update, spike,
    reset), entry by entry; they are what [coba_lif_step] and
    [coba_lif_feed_forward_step] are compared with. *)

Section Algorithm.

Variable R : realFieldType.
Variable threshold : threshold_fn R.
Variables batch inputs neurons : nat.

(** 1. [g -= dt * tau_inv * g]. *)
Definition decay_conductance (dt tau_inv : R) (g : 'M[R]_(batch, neurons))
  : 'M[R]_(batch, neurons) :=
  \matrix_(b, n) (g b n - dt * tau_inv * g b n).

(** 2 and 3. Project the spikes [s] through the positive part of the weights
    [W], [max(w, 0)], and through the positive part of the negated weights,
    [max(-w, 0)]. *)
Definition excitatory_drive (k : nat) (s : 'M[R]_(batch, k))
    (W : 'M[R]_(neurons, k)) : 'M[R]_(batch, neurons) :=
  \matrix_(b, n) \sum_j s b j * Num.max (W n j) 0.

Definition inhibitory_drive (k : nat) (s : 'M[R]_(batch, k))
    (W : 'M[R]_(neurons, k)) : 'M[R]_(batch, neurons) :=
  \matrix_(b, n) \sum_j s b j * Num.max (- W n j) 0.

(** 4. [v += dt * c_m_inv * (g_l*(v_rest - v) + g_e*(e_rev_E - v)
    + g_i*(e_rev_I - v))], from a voltage and a pair of conductances. *)
Definition euler_voltage (p : CobaLIFParameters R) (dt : R)
    (vs ge gi : 'M[R]_(batch, neurons)) : 'M[R]_(batch, neurons) :=
  \matrix_(b, n)
    (vs b n
     + dt * c_m_inv p
       * (g_l p * (v_rest p - vs b n)
          + ge b n * (e_rev_E p - vs b n)
          + gi b n * (e_rev_I p - vs b n))).

(** 5. [z_new = threshold(v - v_thresh, method, alpha)]. *)
Definition spike_output (p : CobaLIFParameters R)
    (vs : 'M[R]_(batch, neurons)) : 'M[R]_(batch, neurons) :=
  threshold (\matrix_(b, n) (vs b n - v_thresh p)) (method p) (alpha p).

(** 6. The reset, [v = (1 - z_new) * v + z_new * v_reset]. *)
Definition reset_voltage (p : CobaLIFParameters R)
    (zs vs : 'M[R]_(batch, neurons)) : 'M[R]_(batch, neurons) :=
  \matrix_(b, n) ((1 - zs b n) * vs b n + zs b n * v_reset p).

(** The recurrent step as the sequence of its phases. *)
Definition coba_lif_step_phases
    (x : 'M[R]_(batch, inputs)) (st : CobaLIFState R batch neurons)
    (W : 'M[R]_(neurons, inputs)) (Wr : 'M[R]_(neurons, neurons))
    (p : CobaLIFParameters R) (dt : R)
  : 'M[R]_(batch, neurons) * CobaLIFState R batch neurons :=
  let ge1 := decay_conductance dt (tau_syn_exc_inv p) (g_e st) in
  let gi1 := decay_conductance dt (tau_syn_inh_inv p) (g_i st) in
  let ge2 := ge1 + excitatory_drive x W in
  let gi2 := gi1 + inhibitory_drive x W in
  let ge3 := ge2 + excitatory_drive (z st) Wr in
  let gi3 := gi2 + inhibitory_drive (z st) Wr in
  let v4 := euler_voltage p dt (v st) ge3 gi3 in
  let z_new := spike_output p v4 in
  let v6 := reset_voltage p z_new v4 in
  (z_new, mkCobaLIFState z_new v6 ge3 gi3).

(** The feed-forward step: no recurrent phase, and the sign of the raw input
    selects the conductance. *)
Definition coba_lif_feed_forward_step_phases
    (x : 'M[R]_(batch, neurons))
    (st : CobaLIFFeedForwardState R batch neurons)
    (p : CobaLIFParameters R) (dt : R)
  : 'M[R]_(batch, neurons) * CobaLIFFeedForwardState R batch neurons :=
  let ge1 := decay_conductance dt (tau_syn_exc_inv p) (ff_g_e st) in
  let gi1 := decay_conductance dt (tau_syn_inh_inv p) (ff_g_i st) in
  let ge2 := ge1 + \matrix_(b, n) Num.max (x b n) 0 in
  let gi2 := gi1 + \matrix_(b, n) Num.max (- x b n) 0 in
  let v4 := euler_voltage p dt (ff_v st) ge2 gi2 in
  let z_new := spike_output p v4 in
  let v6 := reset_voltage p z_new v4 in
  (z_new, mkCobaLIFFeedForwardState v6 ge2 gi2).

End Algorithm.

(** ** Auxiliary notions used in the statements *)

Section Notions.

Variable R : realFieldType.

(** A tensor all of whose entries are non-negative. *)
Definition nonneg (m n : nat) (A : 'M[R]_(m, n)) : Prop :=
  forall i j, 0 <= A i j.

(** A recurrent state as the data model describes it: spikes that are [0]
    or [1], and, for the conductances, no negative entry. *)
Definition spiking_state (batch neurons : nat)
    (st : CobaLIFState R batch neurons) : Prop :=
  [/\ forall b n, z st b n = 0 \/ z st b n = 1,
      nonneg (g_e st) & nonneg (g_i st)].

(** The tensor [W] with the entry at [(i0, j0)] replaced by [c]. *)
Definition set_entry (m n : nat) (W : 'M[R]_(m, n))
    (i0 : 'I_m) (j0 : 'I_n) (c : R) : 'M[R]_(m, n) :=
  \matrix_(i, j) if (i == i0) && (j == j0) then c else W i j.

(** [c] lies weakly between [a] and [b], whichever of the two is smaller. *)
Definition between (a b c : R) : bool :=
  (Num.min a b <= c) && (c <= Num.max a b).

(** [g'] is strictly closer to zero than [g], on the same side of it. *)
Definition strictly_toward_zero (g g' : R) : Prop :=
  (0 < g -> 0 < g' < g) /\ (g < 0 -> g < g' < 0).

(** The part of the contract of [threshold] that says no spike comes out of
    a negative argument. *)
Definition negative_is_silent (threshold : threshold_fn R) : Prop :=
  forall (m n : nat) (A : 'M[R]_(m, n)) s a i j,
    A i j < 0 -> threshold m n A s a i j = 0.

(** [k] steps of the recurrent neuron with no input and all weights zero,
    each fed the state the previous one returned. *)
Definition free_run (threshold : threshold_fn R)
    (batch inputs neurons : nat) (p : CobaLIFParameters R) (dt : R)
    (k : nat) (st : CobaLIFState R batch neurons)
  : CobaLIFState R batch neurons :=
  iter k (fun s =>
            (coba_lif_step threshold (0 : 'M[R]_(batch, inputs)) s 0 0 p dt).2)
       st.

(** The default parameters with both inverse synaptic time constants set to
    zero: synapses that do not decay. *)
Definition non_decaying_parameters : CobaLIFParameters R :=
  let p := default_parameters R in
  mkCobaLIFParameters 0 0 (c_m_inv p) (g_l p) (e_rev_I p) (e_rev_E p)
    (v_rest p) (v_reset p) (v_thresh p) (method p) (alpha p).

(** The default parameters with the rest potential raised to [0], above the
    threshold. *)
Definition rest_above_threshold_parameters : CobaLIFParameters R :=
  let p := default_parameters R in
  mkCobaLIFParameters (tau_syn_exc_inv p) (tau_syn_inh_inv p) (c_m_inv p)
    (g_l p) (e_rev_I p) (e_rev_E p) 0 (v_reset p) (v_thresh p)
    (method p) (alpha p).

End Notions.

(** ** One neuron, one input, batch of one, over the rationals *)

Definition scalar_tensor (c : rat) : 'M[rat]_(1, 1) := bcast 1 1 c.

Definition neuron_state (zs vs ge gi : rat) : CobaLIFState rat 1 1 :=
  mkCobaLIFState (scalar_tensor zs) (scalar_tensor vs)
                 (scalar_tensor ge) (scalar_tensor gi).

Definition neuron_ff_state (vs ge gi : rat) : CobaLIFFeedForwardState rat 1 1 :=
  mkCobaLIFFeedForwardState (scalar_tensor vs)
                            (scalar_tensor ge) (scalar_tensor gi).

(** ** Notions for the further properties *)

Section FurtherNotions.

Variable R : realFieldType.

(** The state of one element of the batch. *)
Definition state_row (batch neurons : nat) (b : 'I_batch)
    (st : CobaLIFState R batch neurons) : CobaLIFState R 1 neurons :=
  mkCobaLIFState (row b (z st)) (row b (v st))
                 (row b (g_e st)) (row b (g_i st)).

(** A threshold that treats the elements of a batch one by one. *)
Definition rowwise (threshold : threshold_fn R) : Prop :=
  forall (m n : nat) (A : 'M[R]_(m, n)) s a (i : 'I_m),
    row i (threshold m n A s a) = threshold 1%N n (row i A) s a.

(** The parameters with the two inverse synaptic time constants exchanged. *)
Definition swap_time_constants (p : CobaLIFParameters R)
  : CobaLIFParameters R :=
  mkCobaLIFParameters (tau_syn_inh_inv p) (tau_syn_exc_inv p) (c_m_inv p)
    (g_l p) (e_rev_I p) (e_rev_E p) (v_rest p) (v_reset p) (v_thresh p)
    (method p) (alpha p).

(** [A] is at most [B] at every entry. *)
Definition entrywise_le (m n : nat) (A B : 'M[R]_(m, n)) : Prop :=
  forall i j, A i j <= B i j.

End FurtherNotions.

(** ** Entries of the tensor operations *)

Section TensorEntries.

Variable R : realFieldType.

Lemma relu1_ge0 (a : R) : 0 <= relu1 a.
Proof. by rewrite /relu1 le_max lexx orbT. Qed.

Lemma relu1_id (a : R) : 0 <= a -> relu1 a = a.
Proof. by move=> a0; rewrite /relu1; apply/max_idPl. Qed.

Lemma relu1_0 (a : R) : a <= 0 -> relu1 a = 0.
Proof. by move=> a0; rewrite /relu1; apply/max_idPr. Qed.

Lemma relu1_zero : relu1 (0 : R) = 0.
Proof. by rewrite /relu1 maxxx. Qed.

Lemma reluE (m n : nat) (A : 'M[R]_(m, n)) i j : relu A i j = relu1 (A i j).
Proof. by rewrite /relu mxE. Qed.

Lemma bcastE (m n : nat) (c : R) i j : bcast m n c i j = c.
Proof. by rewrite /bcast mxE. Qed.

End TensorEntries.

(** ** Entries of the results of the two steps *)

Section StepEntries.

Variable R : realFieldType.
Variable threshold : threshold_fn R.
Variables batch inputs neurons : nat.

Implicit Types (x : 'M[R]_(batch, inputs)) (st : CobaLIFState R batch neurons).
Implicit Types (W : 'M[R]_(neurons, inputs)) (Wr : 'M[R]_(neurons, neurons)).
Implicit Types (p : CobaLIFParameters R) (dt : R).
Implicit Types (y : 'M[R]_(batch, neurons)).
Implicit Types (fs : CobaLIFFeedForwardState R batch neurons).

Lemma step_g_eE x st W Wr p dt b n :
  g_e (coba_lif_step threshold x st W Wr p dt).2 b n =
  g_e st b n + (- dt * tau_syn_exc_inv p) * g_e st b n
  + \sum_k x b k * relu1 (W n k) + \sum_k z st b k * relu1 (Wr n k).
Proof.
rewrite /coba_lif_step /= !mxE.
by congr (_ + _ + _); apply: eq_bigr => k _; rewrite !mxE.
Qed.

Lemma step_g_iE x st W Wr p dt b n :
  g_i (coba_lif_step threshold x st W Wr p dt).2 b n =
  g_i st b n + (- dt * tau_syn_inh_inv p) * g_i st b n
  + \sum_k x b k * relu1 (- W n k) + \sum_k z st b k * relu1 (- Wr n k).
Proof.
rewrite /coba_lif_step /= !mxE.
by congr (_ + _ + _); apply: eq_bigr => k _; rewrite !mxE.
Qed.

Lemma ff_step_g_eE y fs p dt b n :
  ff_g_e (coba_lif_feed_forward_step threshold y fs p dt).2 b n =
  ff_g_e fs b n + (- dt * tau_syn_exc_inv p) * ff_g_e fs b n + relu1 (y b n).
Proof. by rewrite /coba_lif_feed_forward_step /= !mxE. Qed.

Lemma ff_step_g_iE y fs p dt b n :
  ff_g_i (coba_lif_feed_forward_step threshold y fs p dt).2 b n =
  ff_g_i fs b n + (- dt * tau_syn_inh_inv p) * ff_g_i fs b n
  + relu1 (- y b n).
Proof. by rewrite /coba_lif_feed_forward_step /= !mxE. Qed.

Lemma step_spikeE x st W Wr p dt :
  (coba_lif_step threshold x st W Wr p dt).1
  = spike_output threshold p
      (euler_voltage p dt (v st)
         (g_e (coba_lif_step threshold x st W Wr p dt).2)
         (g_i (coba_lif_step threshold x st W Wr p dt).2)).
Proof.
rewrite /coba_lif_step /spike_output /=; congr (threshold _ _ _).
by apply/matrixP => b n; rewrite !mxE.
Qed.

Lemma step_vE x st W Wr p dt :
  v (coba_lif_step threshold x st W Wr p dt).2
  = reset_voltage p (coba_lif_step threshold x st W Wr p dt).1
      (euler_voltage p dt (v st)
         (g_e (coba_lif_step threshold x st W Wr p dt).2)
         (g_i (coba_lif_step threshold x st W Wr p dt).2)).
Proof. by apply/matrixP => b n; rewrite /coba_lif_step /= !mxE. Qed.

Lemma ff_step_spikeE y fs p dt :
  (coba_lif_feed_forward_step threshold y fs p dt).1
  = spike_output threshold p
      (euler_voltage p dt (ff_v fs)
         (ff_g_e (coba_lif_feed_forward_step threshold y fs p dt).2)
         (ff_g_i (coba_lif_feed_forward_step threshold y fs p dt).2)).
Proof.
rewrite /coba_lif_feed_forward_step /spike_output /=; congr (threshold _ _ _).
by apply/matrixP => b n; rewrite !mxE.
Qed.

Lemma ff_step_vE y fs p dt :
  ff_v (coba_lif_feed_forward_step threshold y fs p dt).2
  = reset_voltage p (coba_lif_feed_forward_step threshold y fs p dt).1
      (euler_voltage p dt (ff_v fs)
         (ff_g_e (coba_lif_feed_forward_step threshold y fs p dt).2)
         (ff_g_i (coba_lif_feed_forward_step threshold y fs p dt).2)).
Proof. by apply/matrixP => b n; rewrite /coba_lif_feed_forward_step /= !mxE. Qed.

(** C1. For every input spike tensor, state, input and recurrent weights,
    parameter set and [dt], [coba_lif_step] returns what the phases of the
    design return when run in their order: both conductances decay, the
    feed-forward drive routed by the sign of the input weights is added, the
    recurrent drive routed by the sign of the recurrent weights is added from
    the spikes [z] of the previous state, the voltage is advanced from the
    previous voltage with the conductances just updated, the spikes are
    [threshold (v - v_thresh) method alpha], the reset is applied, and the
    result is the spikes with the state [(z_new, v, g_e, g_i)]. *)
Theorem coba_lif_step_in_order x st W Wr p dt :
  coba_lif_step threshold x st W Wr p dt
  = coba_lif_step_phases threshold x st W Wr p dt.
Proof.
have Ege : g_e (coba_lif_step threshold x st W Wr p dt).2
   = decay_conductance dt (tau_syn_exc_inv p) (g_e st)
     + excitatory_drive x W + excitatory_drive (z st) Wr.
  by apply/matrixP => b n; rewrite step_g_eE !mxE /relu1; ring.
have Egi : g_i (coba_lif_step threshold x st W Wr p dt).2
   = decay_conductance dt (tau_syn_inh_inv p) (g_i st)
     + inhibitory_drive x W + inhibitory_drive (z st) Wr.
  by apply/matrixP => b n; rewrite step_g_iE !mxE /relu1; ring.
by rewrite /coba_lif_step_phases -Ege -Egi -step_spikeE -step_vE.
Qed.

(** X1. For every input, state, parameter set and [dt],
    [coba_lif_feed_forward_step] returns what the phases return when run in
    their order: both conductances decay, the positive part of the raw input
    is added to [g_e] and the positive part of its negation to [g_i], the
    voltage is advanced from the previous voltage with the conductances just
    updated, the spikes are [threshold (v - v_thresh) method alpha], the reset
    is applied, and the result is the spikes with the state [(v, g_e, g_i)];
    no recurrent spike enters. *)
Lemma coba_lif_feed_forward_step_in_order y fs p dt :
  coba_lif_feed_forward_step threshold y fs p dt
  = coba_lif_feed_forward_step_phases threshold y fs p dt.
Proof.
have Ege : ff_g_e (coba_lif_feed_forward_step threshold y fs p dt).2
   = decay_conductance dt (tau_syn_exc_inv p) (ff_g_e fs)
     + \matrix_(b, n) Num.max (y b n) 0.
  by apply/matrixP => b n; rewrite ff_step_g_eE !mxE /relu1; ring.
have Egi : ff_g_i (coba_lif_feed_forward_step threshold y fs p dt).2
   = decay_conductance dt (tau_syn_inh_inv p) (ff_g_i fs)
     + \matrix_(b, n) Num.max (- y b n) 0.
  by apply/matrixP => b n; rewrite ff_step_g_iE !mxE /relu1; ring.
by rewrite /coba_lif_feed_forward_step_phases -Ege -Egi
           -ff_step_spikeE -ff_step_vE.
Qed.

End StepEntries.

(** ** The forward value of the threshold *)

Section ForwardThreshold.

Variable R : realFieldType.
Variables batch inputs neurons : nat.

Lemma threshold_fwdE (m n : nat) (A : 'M[R]_(m, n)) s a i j :
  threshold_fwd A s a i j = if 0 <= A i j then 1 else 0.
Proof. by rewrite /threshold_fwd mxE. Qed.

Lemma step_fwd_spikeE
    (x : 'M[R]_(batch, inputs)) (st : CobaLIFState R batch neurons)
    (W : 'M[R]_(neurons, inputs)) (Wr : 'M[R]_(neurons, neurons))
    (p : CobaLIFParameters R) (dt : R) b n :
  (coba_lif_step (@threshold_fwd R) x st W Wr p dt).1 b n
  = if 0 <= euler_voltage p dt (v st)
              (g_e (coba_lif_step (@threshold_fwd R) x st W Wr p dt).2)
              (g_i (coba_lif_step (@threshold_fwd R) x st W Wr p dt).2) b n
            - v_thresh p
    then 1 else 0.
Proof. by rewrite step_spikeE /spike_output threshold_fwdE mxE. Qed.

Lemma ff_step_fwd_spikeE
    (y : 'M[R]_(batch, neurons))
    (fs : CobaLIFFeedForwardState R batch neurons)
    (p : CobaLIFParameters R) (dt : R) b n :
  (coba_lif_feed_forward_step (@threshold_fwd R) y fs p dt).1 b n
  = if 0 <= euler_voltage p dt (ff_v fs)
              (ff_g_e (coba_lif_feed_forward_step (@threshold_fwd R) y fs p dt).2)
              (ff_g_i (coba_lif_feed_forward_step (@threshold_fwd R) y fs p dt).2)
              b n
            - v_thresh p
    then 1 else 0.
Proof. by rewrite ff_step_spikeE /spike_output threshold_fwdE mxE. Qed.

End ForwardThreshold.

(** Evaluation of the entries of a step on one neuron over the rationals:
    unfold the entry once along the result, then compute. *)
Ltac eval_g_e := rewrite step_g_eE !big_ord1 /= !mxE; vm_compute.

Ltac eval_euler :=
  rewrite [(euler_voltage _ _ _ _ _) _ _]mxE step_g_eE step_g_iE
          !big_ord1 /= !mxE;
  vm_compute.

Ltac eval_spike := rewrite step_fwd_spikeE; eval_euler.

Ltac eval_voltage :=
  rewrite step_vE [(reset_voltage _ _ _) _ _]mxE step_fwd_spikeE; eval_euler.

(** ** Reset *)

Section Reset.

Variable R : realFieldType.
Variable threshold : threshold_fn R.
Variables batch inputs neurons : nat.

(** C2. In the recurrent and in the feed-forward step alike, the returned
    voltage is the convex combination [(1 - z_new) * v + z_new * v_reset] of
    the voltage [v] the Euler update computed and the reset potential;
    wherever the emitted spike [z_new] is exactly [1] the returned voltage is
    exactly [v_reset], whatever the voltage before the reset, and wherever
    [z_new] is exactly [0] it is the voltage of the Euler update. *)
Theorem reset_exactness
    (x : 'M[R]_(batch, inputs)) (st : CobaLIFState R batch neurons)
    (W : 'M[R]_(neurons, inputs)) (Wr : 'M[R]_(neurons, neurons))
    (y : 'M[R]_(batch, neurons))
    (fs : CobaLIFFeedForwardState R batch neurons)
    (p : CobaLIFParameters R) (dt : R) (b : 'I_batch) (n : 'I_neurons) :
  let out := coba_lif_step threshold x st W Wr p dt in
  let ve := euler_voltage p dt (v st) (g_e out.2) (g_i out.2) in
  let fout := coba_lif_feed_forward_step threshold y fs p dt in
  let fve := euler_voltage p dt (ff_v fs) (ff_g_e fout.2) (ff_g_i fout.2) in
  [/\ v out.2 b n = (1 - out.1 b n) * ve b n + out.1 b n * v_reset p,
      out.1 b n = 1 -> v out.2 b n = v_reset p
    & out.1 b n = 0 -> v out.2 b n = ve b n]
  /\
  [/\ ff_v fout.2 b n = (1 - fout.1 b n) * fve b n + fout.1 b n * v_reset p,
      fout.1 b n = 1 -> ff_v fout.2 b n = v_reset p
    & fout.1 b n = 0 -> ff_v fout.2 b n = fve b n].
Proof.
move=> out ve fout fve.
have Ev : v out.2 b n = (1 - out.1 b n) * ve b n + out.1 b n * v_reset p.
  by rewrite /out step_vE mxE.
have Ef : ff_v fout.2 b n
          = (1 - fout.1 b n) * fve b n + fout.1 b n * v_reset p.
  by rewrite /fout ff_step_vE mxE.
split; split=> //.
- by rewrite Ev => ->; ring.
- by rewrite Ev => ->; ring.
- by rewrite Ef => ->; ring.
- by rewrite Ef => ->; ring.
Qed.

End Reset.

(** A neuron with voltage [0] and no conductance spikes under the default
    parameters, its voltage being above the threshold, and is reset to
    [v_reset = -70]. *)
Lemma reset_exactness_witness :
  let out := coba_lif_step (@threshold_fwd rat) (scalar_tensor 0)
               (neuron_state 0 0 0 0) (scalar_tensor 0) (scalar_tensor 0)
               (default_parameters rat) (default_dt rat) in
  out.1 ord0 ord0 = 1 /\ v out.2 ord0 ord0 = - 70%:R.
Proof.
have [[_ H _] _] := reset_exactness (@threshold_fwd rat) (scalar_tensor 0)
  (neuron_state 0 0 0 0) (scalar_tensor 0) (scalar_tensor 0)
  (scalar_tensor 0) (neuron_ff_state 0 0 0)
  (default_parameters rat) (default_dt rat) ord0 ord0.
have E : (coba_lif_step (@threshold_fwd rat) (scalar_tensor 0)
            (neuron_state 0 0 0 0) (scalar_tensor 0) (scalar_tensor 0)
            (default_parameters rat) (default_dt rat)).1 ord0 ord0 = 1.
  by eval_spike.
by split; [exact: E | exact: (H E)].
Defined.

(** ** The boundary of the threshold *)

Section Boundary.

Variable R : realFieldType.
Variables batch inputs neurons : nat.

(** C6. With the forward value of the threshold, in the recurrent and in
    the feed-forward step alike: an entry whose voltage after the Euler update
    satisfies [v - v_thresh = 0] emits the spike [1].  The comparison is not
    strict: the spike is [1] where [0 <= v - v_thresh] and [0] where
    [v - v_thresh < 0]. *)
Theorem threshold_boundary
    (x : 'M[R]_(batch, inputs)) (st : CobaLIFState R batch neurons)
    (W : 'M[R]_(neurons, inputs)) (Wr : 'M[R]_(neurons, neurons))
    (y : 'M[R]_(batch, neurons))
    (fs : CobaLIFFeedForwardState R batch neurons)
    (p : CobaLIFParameters R) (dt : R) (b : 'I_batch) (n : 'I_neurons) :
  let out := coba_lif_step (@threshold_fwd R) x st W Wr p dt in
  let ve := euler_voltage p dt (v st) (g_e out.2) (g_i out.2) in
  let fout := coba_lif_feed_forward_step (@threshold_fwd R) y fs p dt in
  let fve := euler_voltage p dt (ff_v fs) (ff_g_e fout.2) (ff_g_i fout.2) in
  [/\ ve b n - v_thresh p = 0 -> out.1 b n = 1,
      0 <= ve b n - v_thresh p -> out.1 b n = 1
    & ve b n - v_thresh p < 0 -> out.1 b n = 0]
  /\
  [/\ fve b n - v_thresh p = 0 -> fout.1 b n = 1,
      0 <= fve b n - v_thresh p -> fout.1 b n = 1
    & fve b n - v_thresh p < 0 -> fout.1 b n = 0].
Proof.
move=> out ve fout fve.
rewrite /out /fout step_fwd_spikeE ff_step_fwd_spikeE -/out -/fout -/ve -/fve.
split; split.
- by move=> ->; rewrite lexx.
- by move=> ->.
- by rewrite ltNge => /negbTE ->.
- by move=> ->; rewrite lexx.
- by move=> ->.
- by rewrite ltNge => /negbTE ->.
Qed.

End Boundary.

(** Under the default parameters with [dt = 1], the voltage [-60] is
    advanced to [-10], the threshold itself, and the neuron spikes. *)
Lemma threshold_boundary_witness :
  let out := coba_lif_step (@threshold_fwd rat) (scalar_tensor 0)
               (neuron_state 0 (- 60%:R) 0 0) (scalar_tensor 0)
               (scalar_tensor 0) (default_parameters rat) 1 in
  euler_voltage (default_parameters rat) 1 (scalar_tensor (- 60%:R))
    (g_e out.2) (g_i out.2) ord0 ord0 = - 10%:R
  /\ out.1 ord0 ord0 = 1.
Proof.
have [[H _ _] _] := threshold_boundary (scalar_tensor 0)
  (neuron_state 0 (- 60%:R) 0 0) (scalar_tensor 0) (scalar_tensor 0)
  (scalar_tensor 0) (neuron_ff_state (- 60%:R) 0 0)
  (default_parameters rat) 1 ord0 ord0.
by split; last apply: H; eval_euler.
Defined.

(** ** Decay without drive *)

Section ZeroDrive.

Variable R : realFieldType.
Variable threshold : threshold_fn R.
Variables batch inputs neurons : nat.

Implicit Types (st : CobaLIFState R batch neurons).
Implicit Types (fs : CobaLIFFeedForwardState R batch neurons).
Implicit Types (p : CobaLIFParameters R) (dt : R).

Lemma step_zero_drive_g_e st p dt b n :
  g_e (coba_lif_step threshold (0 : 'M[R]_(batch, inputs)) st 0 0 p dt).2 b n
  = g_e st b n * (1 - dt * tau_syn_exc_inv p).
Proof.
rewrite step_g_eE big1 => [k _|]; first by rewrite mxE mul0r.
rewrite big1 => [k _|]; first by rewrite mxE relu1_zero mulr0.
by ring.
Qed.

Lemma step_zero_drive_g_i st p dt b n :
  g_i (coba_lif_step threshold (0 : 'M[R]_(batch, inputs)) st 0 0 p dt).2 b n
  = g_i st b n * (1 - dt * tau_syn_inh_inv p).
Proof.
rewrite step_g_iE big1 => [k _|]; first by rewrite mxE mul0r.
rewrite big1 => [k _|]; first by rewrite mxE oppr0 relu1_zero mulr0.
by ring.
Qed.

Lemma ff_step_zero_drive_g_e fs p dt b n :
  ff_g_e (coba_lif_feed_forward_step threshold 0 fs p dt).2 b n
  = ff_g_e fs b n * (1 - dt * tau_syn_exc_inv p).
Proof. by rewrite ff_step_g_eE mxE relu1_zero; ring. Qed.

Lemma ff_step_zero_drive_g_i fs p dt b n :
  ff_g_i (coba_lif_feed_forward_step threshold 0 fs p dt).2 b n
  = ff_g_i fs b n * (1 - dt * tau_syn_inh_inv p).
Proof. by rewrite ff_step_g_iE mxE oppr0 relu1_zero; ring. Qed.

Lemma toward_zero_scale (g k : R) :
  0 < k < 1 -> strictly_toward_zero g (g * (1 - k)).
Proof.
case/andP=> k0 k1; split=> g0; apply/andP; split; nra.
Qed.

(** C4. With all weights zero and an all-zero input, for every
    state, one step of either kind maps the conductances to
    [g_e * (1 - dt * tau_syn_exc_inv)] and [g_i * (1 - dt * tau_syn_inh_inv)].
    When [dt * tau_syn_exc_inv] lies strictly between [0] and [1], every
    non-zero entry of [g_e] moves strictly toward zero without changing sign,
    and likewise [g_i] when [dt * tau_syn_inh_inv] lies strictly between [0]
    and [1]. *)
Theorem decay_only st p dt b n :
  let fs := mkCobaLIFFeedForwardState (v st) (g_e st) (g_i st) in
  let out :=
    coba_lif_step threshold (0 : 'M[R]_(batch, inputs)) st 0 0 p dt in
  let fout := coba_lif_feed_forward_step threshold 0 fs p dt in
  [/\ g_e out.2 b n = g_e st b n * (1 - dt * tau_syn_exc_inv p),
      g_i out.2 b n = g_i st b n * (1 - dt * tau_syn_inh_inv p),
      ff_g_e fout.2 b n = g_e st b n * (1 - dt * tau_syn_exc_inv p)
    & ff_g_i fout.2 b n = g_i st b n * (1 - dt * tau_syn_inh_inv p)]
  /\ ((0 < dt * tau_syn_exc_inv p < 1 ->
       strictly_toward_zero (g_e st b n) (g_e out.2 b n)
       /\ strictly_toward_zero (g_e st b n) (ff_g_e fout.2 b n))
      /\
      (0 < dt * tau_syn_inh_inv p < 1 ->
       strictly_toward_zero (g_i st b n) (g_i out.2 b n)
       /\ strictly_toward_zero (g_i st b n) (ff_g_i fout.2 b n))).
Proof.
move=> fs out fout.
rewrite /out /fout step_zero_drive_g_e step_zero_drive_g_i.
rewrite ff_step_zero_drive_g_e ff_step_zero_drive_g_i /=.
by split=> //; split=> k01; split; exact: toward_zero_scale.
Qed.

(** Over [k] steps without drive the conductances follow a geometric
    sequence. *)
Lemma free_run_g_e st p dt k b n :
  g_e (free_run threshold inputs p dt k st) b n
  = g_e st b n * (1 - dt * tau_syn_exc_inv p) ^+ k.
Proof.
elim: k => [|k IH]; first by rewrite /free_run /= expr0 mulr1.
by rewrite /free_run iterS -/(free_run _ _ _ _ _ _) step_zero_drive_g_e IH
           exprSr mulrA.
Qed.

Lemma free_run_g_i st p dt k b n :
  g_i (free_run threshold inputs p dt k st) b n
  = g_i st b n * (1 - dt * tau_syn_inh_inv p) ^+ k.
Proof.
elim: k => [|k IH]; first by rewrite /free_run /= expr0 mulr1.
by rewrite /free_run iterS -/(free_run _ _ _ _ _ _) step_zero_drive_g_i IH
           exprSr mulrA.
Qed.

End ZeroDrive.

(** A positive [dt] with [dt * tau_inv < 1] is not enough for the decay:
    with synapses that do not decay ([tau_syn_exc_inv = 0]) and the default
    [dt], the conductance [1] is still [1] after the step. *)
Lemma decay_only_counterexample :
  let p := non_decaying_parameters rat in
  let dt := default_dt rat in
  let st := neuron_state 0 (- 20%:R) 1 1 in
  let out :=
    coba_lif_step (@threshold_fwd rat) (0 : 'M[rat]_(1, 1)) st 0 0 p dt in
  [/\ 0 < dt, dt * tau_syn_exc_inv p < 1, g_e st ord0 ord0 = 1,
      g_e out.2 ord0 ord0 = 1
    & ~ strictly_toward_zero (g_e st ord0 ord0) (g_e out.2 ord0 ord0)].
Proof.
move=> p dt st out.
have Est : g_e st ord0 ord0 = 1 by rewrite /st /= bcastE.
have Eout : g_e out.2 ord0 ord0 = 1.
  by rewrite /out step_zero_drive_g_e Est /p /dt /=; vm_compute.
split.
- by vm_compute.
- by vm_compute.
- exact: Est.
- exact: Eout.
- rewrite Est Eout => -[H _]; move: (H isT).
  by vm_compute.
Qed.

(** Under the default parameters and the default [dt] the conductance [1]
    decays. *)
Lemma decay_only_witness :
  let p := default_parameters rat in
  let dt := default_dt rat in
  let st := neuron_state 0 (- 20%:R) 1 1 in
  let out :=
    coba_lif_step (@threshold_fwd rat) (0 : 'M[rat]_(1, 1)) st 0 0 p dt in
  0 < dt * tau_syn_exc_inv p < 1
  /\ strictly_toward_zero (g_e st ord0 ord0) (g_e out.2 ord0 ord0).
Proof.
move=> p dt st out.
have k01 : 0 < dt * tau_syn_exc_inv p < 1 by vm_compute.
have [_ [H _]] := decay_only (@threshold_fwd rat) 1 st p dt ord0 ord0.
split; first exact: k01.
by case: (H k01).
Defined.

(** ** Relaxation toward the rest potential *)

Section Relaxation.

Variable R : realFieldType.
Variable threshold : threshold_fn R.
Variables batch inputs neurons : nat.

Lemma relax_between (a r k : R) :
  0 <= k <= 1 -> between a r (a + k * (r - a)).
Proof.
case/andP=> k0 k1; rewrite /between.
by case: (leP a r) => ar; apply/andP; split; nra.
Qed.

Lemma between_lt (a r c t : R) : between a r c -> a < t -> r < t -> c < t.
Proof.
case/andP=> _ cmax at_ rt; apply: le_lt_trans cmax _.
by rewrite gt_max at_ rt.
Qed.

Lemma euler_voltage_leak (p : CobaLIFParameters R) (dt : R)
    (vs ge gi : 'M[R]_(batch, neurons)) b n :
  ge b n = 0 -> gi b n = 0 ->
  euler_voltage p dt vs ge gi b n
  = vs b n + dt * c_m_inv p * g_l p * (v_rest p - vs b n).
Proof. by move=> ge0 gi0; rewrite mxE ge0 gi0; ring. Qed.

Lemma threshold_fwd_silent : negative_is_silent (@threshold_fwd R).
Proof. by move=> m n A s a i j A0; rewrite threshold_fwdE leNgt A0. Qed.

(** A neuron without conductances and without drive: the recurrent step. *)
Lemma leak_step_relaxes
    (zs vs : 'M[R]_(batch, neurons)) (p : CobaLIFParameters R) (dt : R)
    (b : 'I_batch) (n : 'I_neurons) :
  negative_is_silent threshold ->
  vs b n < v_thresh p ->
  0 <= dt * c_m_inv p * g_l p <= 1 ->
  v_rest p < v_thresh p ->
  let out :=
    coba_lif_step threshold (0 : 'M[R]_(batch, inputs))
      (mkCobaLIFState zs vs 0 0) 0 0 p dt in
  between (vs b n) (v_rest p) (v out.2 b n) /\ out.1 b n = 0.
Proof.
move=> silent v_lt k01 rest_lt out.
have btw := relax_between (vs b n) (v_rest p) k01.
have sub := between_lt btw v_lt rest_lt.
have Eve : euler_voltage p dt vs (g_e out.2) (g_i out.2) b n
           = vs b n + dt * c_m_inv p * g_l p * (v_rest p - vs b n).
  apply: euler_voltage_leak.
    by rewrite /out step_zero_drive_g_e /= mxE mul0r.
  by rewrite /out step_zero_drive_g_i /= mxE mul0r.
have Ez : out.1 b n = 0.
  rewrite /out step_spikeE -/out /spike_output; apply: silent.
  by rewrite mxE Eve subr_lt0.
split=> //.
by rewrite /out step_vE -/out mxE Ez /= Eve subr0 mul1r mul0r addr0.
Qed.

(** The same for the feed-forward step. *)
Lemma leak_ff_step_relaxes
    (vs : 'M[R]_(batch, neurons)) (p : CobaLIFParameters R) (dt : R)
    (b : 'I_batch) (n : 'I_neurons) :
  negative_is_silent threshold ->
  vs b n < v_thresh p ->
  0 <= dt * c_m_inv p * g_l p <= 1 ->
  v_rest p < v_thresh p ->
  let fout :=
    coba_lif_feed_forward_step threshold 0
      (mkCobaLIFFeedForwardState vs 0 0) p dt in
  between (vs b n) (v_rest p) (ff_v fout.2 b n) /\ fout.1 b n = 0.
Proof.
move=> silent v_lt k01 rest_lt fout.
have btw := relax_between (vs b n) (v_rest p) k01.
have sub := between_lt btw v_lt rest_lt.
have Efve : euler_voltage p dt vs (ff_g_e fout.2) (ff_g_i fout.2) b n
           = vs b n + dt * c_m_inv p * g_l p * (v_rest p - vs b n).
  apply: euler_voltage_leak.
    by rewrite /fout ff_step_zero_drive_g_e /= mxE mul0r.
  by rewrite /fout ff_step_zero_drive_g_i /= mxE mul0r.
have Efz : fout.1 b n = 0.
  rewrite /fout ff_step_spikeE -/fout /spike_output; apply: silent.
  by rewrite mxE Efve subr_lt0.
split=> //.
by rewrite /fout ff_step_vE -/fout mxE Efz /= Efve subr0 mul1r mul0r addr0.
Qed.

(** C5. Take all weights zero, an all-zero input and conductances
    [g_e = g_i = 0], a threshold that emits no spike at a negative argument,
    an Euler gain [dt * c_m_inv * g_l] between [0] and [1], and a rest
    potential below the threshold.  Then at every entry whose voltage lies
    strictly between [v_reset] and [v_thresh], the voltage either step returns
    lies weakly between the old voltage and [v_rest], and no spike is
    emitted. *)
Theorem relaxation_toward_rest
    (zs vs : 'M[R]_(batch, neurons)) (p : CobaLIFParameters R) (dt : R)
    (b : 'I_batch) (n : 'I_neurons) :
  negative_is_silent threshold ->
  v_reset p < vs b n < v_thresh p ->
  0 <= dt * c_m_inv p * g_l p <= 1 ->
  v_rest p < v_thresh p ->
  let out :=
    coba_lif_step threshold (0 : 'M[R]_(batch, inputs))
      (mkCobaLIFState zs vs 0 0) 0 0 p dt in
  let fout :=
    coba_lif_feed_forward_step threshold 0
      (mkCobaLIFFeedForwardState vs 0 0) p dt in
  [/\ between (vs b n) (v_rest p) (v out.2 b n), out.1 b n = 0,
      between (vs b n) (v_rest p) (ff_v fout.2 b n) & fout.1 b n = 0].
Proof.
move=> silent /andP[_ v_lt] k01 rest_lt out fout.
have [H1 H2] := leak_step_relaxes zs silent v_lt k01 rest_lt.
have [H3 H4] := leak_ff_step_relaxes silent v_lt k01 rest_lt.
by split.
Qed.

(** X15. The default parameters with the default [dt] are in the stable
    regime of the Euler step: with no input, all weights zero, no conductance
    and a threshold that is silent at negative arguments, at every entry
    whose voltage is below the threshold the voltage either step returns lies
    weakly between the old voltage and the rest potential, and no spike is
    emitted. *)
Lemma default_relaxation (zs vs : 'M[R]_(batch, neurons))
    (b : 'I_batch) (n : 'I_neurons) :
  negative_is_silent threshold ->
  vs b n < v_thresh (default_parameters R) ->
  let p := default_parameters R in
  let out :=
    coba_lif_step threshold (0 : 'M[R]_(batch, inputs))
      (mkCobaLIFState zs vs 0 0) 0 0 p (default_dt R) in
  let fout :=
    coba_lif_feed_forward_step threshold 0
      (mkCobaLIFFeedForwardState vs 0 0) p (default_dt R) in
  [/\ between (vs b n) (v_rest p) (v out.2 b n), out.1 b n = 0,
      between (vs b n) (v_rest p) (ff_v fout.2 b n) & fout.1 b n = 0].
Proof.
move=> silent v_lt p out fout.
have k01 : 0 <= default_dt R * c_m_inv p * g_l p <= 1.
  by rewrite /default_dt /=; apply/andP; split; lra.
have rest_lt : v_rest p < v_thresh p by rewrite /=; lra.
have [H1 H2] := leak_step_relaxes zs silent v_lt k01 rest_lt.
have [H3 H4] := leak_ff_step_relaxes silent v_lt k01 rest_lt.
by split.
Qed.

End Relaxation.

(** Without the bound on the Euler gain and without the rest potential below
    the threshold the relaxation fails.  Under the default parameters with
    [dt = 1] the gain is [5/4] and the voltage [-30] overshoots the rest
    potential [-20] to [-35/2].  With the rest potential raised to [0] and
    [dt = 1/2] the voltage [-20] is pulled across the threshold [-10] and the
    neuron spikes. *)
Lemma relaxation_toward_rest_counterexample :
  (let p := default_parameters rat in
   let out :=
     coba_lif_step (@threshold_fwd rat) (0 : 'M[rat]_(1, 1))
       (mkCobaLIFState 0 (scalar_tensor (- 30%:R)) 0 0) 0 0 p 1 in
   [/\ v_reset p < - 30%:R < v_thresh p,
       v out.2 ord0 ord0 = - 35%:R / 2%:R
     & ~~ between (- 30%:R) (v_rest p) (v out.2 ord0 ord0)])
  /\
  (let p := rest_above_threshold_parameters rat in
   let out :=
     coba_lif_step (@threshold_fwd rat) (0 : 'M[rat]_(1, 1))
       (mkCobaLIFState 0 (scalar_tensor (- 20%:R)) 0 0) 0 0 p (1 / 2%:R) in
   [/\ v_reset p < - 20%:R < v_thresh p,
       0 <= 1 / 2%:R * c_m_inv p * g_l p <= 1
     & out.1 ord0 ord0 = 1]).
Proof.
split=> p out.
- have Ev : v out.2 ord0 ord0 = - 35%:R / 2%:R.
    by rewrite /out /p; eval_voltage.
  split; [by vm_compute | exact: Ev | rewrite Ev; by vm_compute].
- split; [by vm_compute | by vm_compute | ].
  by rewrite /out /p; eval_spike.
Qed.

(** Under the default parameters and the default [dt] the voltage [-30]
    relaxes toward [-20] without a spike. *)
Lemma relaxation_toward_rest_witness :
  let p := default_parameters rat in
  let dt := default_dt rat in
  let out :=
    coba_lif_step (@threshold_fwd rat) (0 : 'M[rat]_(1, 1))
      (mkCobaLIFState 0 (scalar_tensor (- 30%:R)) 0 0) 0 0 p dt in
  between (- 30%:R) (v_rest p) (v out.2 ord0 ord0) /\ out.1 ord0 ord0 = 0.
Proof.
move=> p dt out.
have Hv : v_reset p < scalar_tensor (- 30%:R) ord0 ord0 < v_thresh p.
  by rewrite bcastE; vm_compute.
have Hk : 0 <= dt * c_m_inv p * g_l p <= 1 by vm_compute.
have Hr : v_rest p < v_thresh p by vm_compute.
have [H1 H2 _ _] :=
  @relaxation_toward_rest rat (@threshold_fwd rat) 1 1 1 0
    (scalar_tensor (- 30%:R)) p dt ord0 ord0
    (@threshold_fwd_silent rat) Hv Hk Hr.
split; last exact: H2.
by move: H1; rewrite bcastE.
Defined.

(** ** Non-negative conductances *)

Section NonNegativity.

Variable R : realFieldType.
Variable threshold : threshold_fn R.
Variables batch inputs neurons : nat.

Lemma decay_ge0 (g k : R) : 0 <= g -> 0 <= k <= 1 -> 0 <= g + (- k) * g.
Proof. by move=> g0 /andP[k0 k1]; nra. Qed.

Lemma drive_ge0 (m : nat) (s : 'M[R]_(batch, m)) (w : 'I_m -> R) b :
  nonneg s -> 0 <= \sum_k s b k * relu1 (w k).
Proof.
move=> s0; apply: sumr_ge0 => k _.
by apply: mulr_ge0; [exact: s0 | exact: relu1_ge0].
Qed.

Lemma step_conductances_ge0
    (x : 'M[R]_(batch, inputs)) (st : CobaLIFState R batch neurons)
    (W : 'M[R]_(neurons, inputs)) (Wr : 'M[R]_(neurons, neurons))
    (p : CobaLIFParameters R) (dt : R) :
  nonneg (g_e st) -> nonneg (g_i st) -> nonneg x -> nonneg (z st) ->
  0 <= dt * tau_syn_exc_inv p <= 1 ->
  0 <= dt * tau_syn_inh_inv p <= 1 ->
  nonneg (g_e (coba_lif_step threshold x st W Wr p dt).2)
  /\ nonneg (g_i (coba_lif_step threshold x st W Wr p dt).2).
Proof.
move=> ge0 gi0 x0 z0 ke ki; split=> b n.
- rewrite step_g_eE mulNr.
  do 2![apply: addr_ge0; last exact: drive_ge0].
  exact: decay_ge0.
- rewrite step_g_iE mulNr.
  do 2![apply: addr_ge0; last exact: drive_ge0].
  exact: decay_ge0.
Qed.

Lemma ff_step_conductances_ge0
    (y : 'M[R]_(batch, neurons))
    (fs : CobaLIFFeedForwardState R batch neurons)
    (p : CobaLIFParameters R) (dt : R) :
  nonneg (ff_g_e fs) -> nonneg (ff_g_i fs) ->
  0 <= dt * tau_syn_exc_inv p <= 1 ->
  0 <= dt * tau_syn_inh_inv p <= 1 ->
  nonneg (ff_g_e (coba_lif_feed_forward_step threshold y fs p dt).2)
  /\ nonneg (ff_g_i (coba_lif_feed_forward_step threshold y fs p dt).2).
Proof.
move=> ge0 gi0 ke ki; split=> b n.
- rewrite ff_step_g_eE mulNr.
  by apply: addr_ge0; [exact: decay_ge0 | exact: relu1_ge0].
- rewrite ff_step_g_iE mulNr.
  by apply: addr_ge0; [exact: decay_ge0 | exact: relu1_ge0].
Qed.

(** C10. If the conductances [g_e] and [g_i] of the incoming state
    are non-negative at every entry, the input tensor and the spikes [z] of
    the incoming state are non-negative at every entry,
    [0 <= dt * tau_syn_exc_inv <= 1] and [0 <= dt * tau_syn_inh_inv <= 1],
    then the conductances the recurrent step returns are non-negative at every
    entry; so are those the feed-forward step returns, for any input. *)
Theorem conductances_stay_nonneg
    (x : 'M[R]_(batch, inputs)) (st : CobaLIFState R batch neurons)
    (W : 'M[R]_(neurons, inputs)) (Wr : 'M[R]_(neurons, neurons))
    (y : 'M[R]_(batch, neurons))
    (p : CobaLIFParameters R) (dt : R) :
  nonneg (g_e st) -> nonneg (g_i st) -> nonneg x -> nonneg (z st) ->
  0 <= dt * tau_syn_exc_inv p <= 1 ->
  0 <= dt * tau_syn_inh_inv p <= 1 ->
  let fs := mkCobaLIFFeedForwardState (v st) (g_e st) (g_i st) in
  let out := coba_lif_step threshold x st W Wr p dt in
  let fout := coba_lif_feed_forward_step threshold y fs p dt in
  [/\ nonneg (g_e out.2), nonneg (g_i out.2),
      nonneg (ff_g_e fout.2) & nonneg (ff_g_i fout.2)].
Proof.
move=> ge0 gi0 x0 z0 ke ki fs out fout.
have [H1 H2] := step_conductances_ge0 W Wr ge0 gi0 x0 z0 ke ki.
have [H3 H4] := @ff_step_conductances_ge0 y fs p dt ge0 gi0 ke ki.
by split.
Qed.

End NonNegativity.

(** X14. Along a run the condition on [z] maintains itself: with the forward
    value of the threshold, for [0 <= dt * tau_syn_exc_inv <= 1] and
    [0 <= dt * tau_syn_inh_inv <= 1], a recurrent step from a state whose
    spikes are [0] or [1] and whose conductances are non-negative, on a
    non-negative input, returns such a state again. *)
Lemma step_keeps_spiking_state (R : realFieldType)
    (batch inputs neurons : nat)
    (x : 'M[R]_(batch, inputs)) (st : CobaLIFState R batch neurons)
    (W : 'M[R]_(neurons, inputs)) (Wr : 'M[R]_(neurons, neurons))
    (p : CobaLIFParameters R) (dt : R) :
  spiking_state st -> nonneg x ->
  0 <= dt * tau_syn_exc_inv p <= 1 ->
  0 <= dt * tau_syn_inh_inv p <= 1 ->
  spiking_state (coba_lif_step (@threshold_fwd R) x st W Wr p dt).2.
Proof.
move=> [z01 ge0 gi0] x0 ke ki.
have z0 : nonneg (z st).
  by move=> b n; case: (z01 b n) => ->.
have [H1 H2] :=
  step_conductances_ge0 (@threshold_fwd R) W Wr ge0 gi0 x0 z0 ke ki.
split=> // b n.
have -> : z (coba_lif_step (@threshold_fwd R) x st W Wr p dt).2
          = (coba_lif_step (@threshold_fwd R) x st W Wr p dt).1 by [].
by rewrite step_fwd_spikeE; case: ifP => _; [right | left].
Qed.

(** Without the condition on [z] the conductances can turn negative: from
    zero conductances, a zero input and the recurrent weight [1], the spike
    [-1] in the incoming state gives [g_e = -1]. *)
Lemma conductances_stay_nonneg_counterexample :
  let p := default_parameters rat in
  let dt := default_dt rat in
  let st := neuron_state (- 1) (- 20%:R) 0 0 in
  let out :=
    coba_lif_step (@threshold_fwd rat) (scalar_tensor 0) st
      (scalar_tensor 0) (scalar_tensor 1) p dt in
  [/\ nonneg (g_e st), nonneg (g_i st) & nonneg (scalar_tensor 0)]
  /\ [/\ 0 <= dt * tau_syn_exc_inv p <= 1, 0 <= dt * tau_syn_inh_inv p <= 1,
         g_e out.2 ord0 ord0 = - 1 & ~ nonneg (g_e out.2)].
Proof.
move=> p dt st out.
have Eg : g_e out.2 ord0 ord0 = - 1 by rewrite /out /st /p /dt; eval_g_e.
have N0 : nonneg (scalar_tensor 0) by move=> i j; rewrite bcastE.
split; split.
- exact: N0.
- exact: N0.
- exact: N0.
- by vm_compute.
- by vm_compute.
- exact: Eg.
- by move/(_ ord0 ord0); rewrite Eg; vm_compute.
Qed.

(** One neuron with input, spike and conductances [1], input weight [1] and
    recurrent weight [-1]. *)
Lemma conductances_stay_nonneg_witness :
  let p := default_parameters rat in
  let dt := default_dt rat in
  let st := neuron_state 1 (- 20%:R) 1 1 in
  let out :=
    coba_lif_step (@threshold_fwd rat) (scalar_tensor 1) st
      (scalar_tensor 1) (scalar_tensor (- 1)) p dt in
  nonneg (g_e out.2) /\ nonneg (g_i out.2).
Proof.
move=> p dt st out.
have H0 (c : rat) : 0 <= c -> nonneg (scalar_tensor c).
  by move=> c0 i j; rewrite bcastE.
have ke : 0 <= dt * tau_syn_exc_inv p <= 1 by vm_compute.
have ki : 0 <= dt * tau_syn_inh_inv p <= 1 by vm_compute.
have [H1 H2 _ _] :=
  @conductances_stay_nonneg rat (@threshold_fwd rat) 1 1 1
    (scalar_tensor 1) st (scalar_tensor 1) (scalar_tensor (- 1))
    (scalar_tensor 1) p dt
    (H0 1 isT) (H0 1 isT) (H0 1 isT) (H0 1 isT) ke ki.
by split.
Defined.

(** ** Sign routing *)

Section SignRouting.

Variable R : realFieldType.
Variable threshold : threshold_fn R.
Variables batch inputs neurons : nat.

Lemma set_entryE (m n : nat) (W : 'M[R]_(m, n)) i0 j0 c i j :
  set_entry W i0 j0 c i j = if (i == i0) && (j == j0) then c else W i j.
Proof. by rewrite /set_entry mxE. Qed.

(** The drive a row of spikes sends through [f] of the weights, split into
    the part through the entry [(n, j0)] and the part through the others. *)
Lemma drive_set_entry (k : nat) (s : 'M[R]_(batch, k))
    (W : 'M[R]_(neurons, k)) (f : R -> R) (n : 'I_neurons) (j0 : 'I_k)
    (c : R) b m :
  \sum_j s b j * f (W m j)
  = \sum_j s b j * f (set_entry W n j0 c m j)
    + (if m == n then s b j0 * (f (W n j0) - f c) else 0).
Proof.
case: (eqVneq m n) => [->|mn].
  rewrite (bigD1 j0) //= [in RHS](bigD1 j0) //= set_entryE !eqxx /=.
  have -> : \sum_(i < k | i != j0) s b i * f (set_entry W n j0 c n i)
            = \sum_(i < k | i != j0) s b i * f (W n i).
    by apply: eq_bigr => j jj0; rewrite set_entryE eqxx (negbTE jj0).
  by ring.
rewrite addr0; apply: eq_bigr => j _.
by rewrite set_entryE (negbTE mn).
Qed.

Lemma exc_drive_set_entry (k : nat) (s : 'M[R]_(batch, k))
    (W : 'M[R]_(neurons, k)) (n : 'I_neurons) (j0 : 'I_k) b m :
  \sum_j s b j * relu1 (W m j)
  = \sum_j s b j * relu1 (set_entry W n j0 0 m j)
    + (if m == n then s b j0 * relu1 (W n j0) else 0).
Proof. by rewrite (drive_set_entry s W (@relu1 R) n j0 0) relu1_zero subr0. Qed.

Lemma inh_drive_set_entry (k : nat) (s : 'M[R]_(batch, k))
    (W : 'M[R]_(neurons, k)) (n : 'I_neurons) (j0 : 'I_k) b m :
  \sum_j s b j * relu1 (- W m j)
  = \sum_j s b j * relu1 (- set_entry W n j0 0 m j)
    + (if m == n then s b j0 * relu1 (- W n j0) else 0).
Proof.
have := drive_set_entry s W (fun w => relu1 (- w)) n j0 0 b m.
by rewrite /= oppr0 relu1_zero subr0.
Qed.

Lemma routed_ge0 (s w : R) (c : bool) :
  0 <= s -> 0 <= (if c then s * relu1 w else 0).
Proof. by move=> s0; case: c => //; apply: mulr_ge0 => //; exact: relu1_ge0. Qed.

Lemma routed_0 (s w : R) (c : bool) :
  w <= 0 -> (if c then s * relu1 w else 0) = 0.
Proof. by move=> w0; rewrite relu1_0 // mulr0 if_same. Qed.

(** C3. Sign routing.  In the recurrent step, for non-negative spikes (the
    input tensor and the spikes [z] of the state): setting a strictly positive
    entry of [input_weights] or of [recurrent_weights] to zero leaves the
    returned [g_i] unchanged and does not raise any entry of the returned
    [g_e], which loses exactly the spike times the weight; for a strictly
    negative entry the roles of [g_e] and [g_i] are exchanged and the amount
    is the spike times the negated weight.  In the feed-forward step, against
    the step on the zero input, a strictly positive input entry adds itself to
    [g_e] and nothing to [g_i], and a strictly negative one adds its negation
    to [g_i] and nothing to [g_e]. *)
Theorem sign_routing
    (x : 'M[R]_(batch, inputs)) (st : CobaLIFState R batch neurons)
    (W : 'M[R]_(neurons, inputs)) (Wr : 'M[R]_(neurons, neurons))
    (y : 'M[R]_(batch, neurons))
    (p : CobaLIFParameters R) (dt : R)
    (n : 'I_neurons) (k : 'I_inputs) (m : 'I_neurons) (b : 'I_batch) :
  nonneg x -> nonneg (z st) ->
  let fs := mkCobaLIFFeedForwardState (v st) (g_e st) (g_i st) in
  let out := coba_lif_step threshold x st W Wr p dt in
  let outW := coba_lif_step threshold x st (set_entry W n k 0) Wr p dt in
  let outR := coba_lif_step threshold x st W (set_entry Wr n m 0) p dt in
  let fout := coba_lif_feed_forward_step threshold y fs p dt in
  let f0 := coba_lif_feed_forward_step threshold 0 fs p dt in
  [/\ 0 < W n k ->
        [/\ g_i out.2 = g_i outW.2,
            forall c j, g_e outW.2 c j <= g_e out.2 c j
          & g_e out.2 b n = g_e outW.2 b n + x b k * W n k],
      W n k < 0 ->
        [/\ g_e out.2 = g_e outW.2,
            forall c j, g_i outW.2 c j <= g_i out.2 c j
          & g_i out.2 b n = g_i outW.2 b n + x b k * (- W n k)],
      0 < Wr n m ->
        [/\ g_i out.2 = g_i outR.2,
            forall c j, g_e outR.2 c j <= g_e out.2 c j
          & g_e out.2 b n = g_e outR.2 b n + z st b m * Wr n m],
      Wr n m < 0 ->
        [/\ g_e out.2 = g_e outR.2,
            forall c j, g_i outR.2 c j <= g_i out.2 c j
          & g_i out.2 b n = g_i outR.2 b n + z st b m * (- Wr n m)]
    & (0 < y b n ->
         ff_g_e fout.2 b n = ff_g_e f0.2 b n + y b n
         /\ ff_g_i fout.2 b n = ff_g_i f0.2 b n)
      /\
      (y b n < 0 ->
         ff_g_i fout.2 b n = ff_g_i f0.2 b n + (- y b n)
         /\ ff_g_e fout.2 b n = ff_g_e f0.2 b n)].
Proof.
move=> x0 z0 fs out outW outR fout f0.
have EeW c j : g_e out.2 c j
    = g_e outW.2 c j + (if j == n then x c k * relu1 (W n k) else 0).
  by rewrite /out /outW !step_g_eE (exc_drive_set_entry x W n k); ring.
have EiW c j : g_i out.2 c j
    = g_i outW.2 c j + (if j == n then x c k * relu1 (- W n k) else 0).
  by rewrite /out /outW !step_g_iE (inh_drive_set_entry x W n k); ring.
have EeR c j : g_e out.2 c j
    = g_e outR.2 c j + (if j == n then z st c m * relu1 (Wr n m) else 0).
  by rewrite /out /outR !step_g_eE (exc_drive_set_entry (z st) Wr n m); ring.
have EiR c j : g_i out.2 c j
    = g_i outR.2 c j + (if j == n then z st c m * relu1 (- Wr n m) else 0).
  by rewrite /out /outR !step_g_iE (inh_drive_set_entry (z st) Wr n m); ring.
have Efe : ff_g_e fout.2 b n = ff_g_e f0.2 b n + relu1 (y b n).
  by rewrite /fout /f0 !ff_step_g_eE /= mxE relu1_zero; ring.
have Efi : ff_g_i fout.2 b n = ff_g_i f0.2 b n + relu1 (- y b n).
  by rewrite /fout /f0 !ff_step_g_iE /= mxE oppr0 relu1_zero; ring.
split.
- move=> w0; split.
  + by apply/matrixP => c j; rewrite EiW routed_0 ?addr0 // oppr_le0 ltW.
  + by move=> c j; rewrite EeW lerDl routed_ge0.
  + by rewrite EeW eqxx relu1_id // ltW.
- move=> w0; split.
  + by apply/matrixP => c j; rewrite EeW routed_0 ?addr0 // ltW.
  + by move=> c j; rewrite EiW lerDl routed_ge0.
  + by rewrite EiW eqxx relu1_id // oppr_ge0 ltW.
- move=> w0; split.
  + by apply/matrixP => c j; rewrite EiR routed_0 ?addr0 // oppr_le0 ltW.
  + by move=> c j; rewrite EeR lerDl routed_ge0.
  + by rewrite EeR eqxx relu1_id // ltW.
- move=> w0; split.
  + by apply/matrixP => c j; rewrite EeR routed_0 ?addr0 // ltW.
  + by move=> c j; rewrite EiR lerDl routed_ge0.
  + by rewrite EiR eqxx relu1_id // oppr_ge0 ltW.
- split=> y0.
  + rewrite Efe Efi relu1_id ?(ltW y0) // relu1_0 ?addr0 //.
    by rewrite oppr_le0 ltW.
  + rewrite Efe Efi relu1_id ?oppr_ge0 ?(ltW y0) // relu1_0 ?addr0 //.
    exact: ltW.
Qed.

End SignRouting.

(** One neuron with input [1], spike [1] and the positive input weight [1]:
    the weight adds [1 * 1] to [g_e] and nothing to [g_i]. *)
Lemma sign_routing_witness :
  let p := default_parameters rat in
  let dt := default_dt rat in
  let st := neuron_state 1 (- 20%:R) 0 0 in
  let out :=
    coba_lif_step (@threshold_fwd rat) (scalar_tensor 1) st
      (scalar_tensor 1) (scalar_tensor 1) p dt in
  let outW :=
    coba_lif_step (@threshold_fwd rat) (scalar_tensor 1) st
      (set_entry (scalar_tensor 1) ord0 ord0 0) (scalar_tensor 1) p dt in
  g_i out.2 = g_i outW.2
  /\ g_e out.2 ord0 ord0 = g_e outW.2 ord0 ord0 + 1 * 1.
Proof.
move=> p dt st out outW.
have N1 : nonneg (scalar_tensor 1) by move=> i j; rewrite bcastE.
have W1 : 0 < scalar_tensor 1 ord0 ord0 by rewrite bcastE.
have [H _ _ _ _] :=
  @sign_routing rat (@threshold_fwd rat) 1 1 1 (scalar_tensor 1) st
    (scalar_tensor 1) (scalar_tensor 1) (scalar_tensor 1) p dt
    ord0 ord0 ord0 ord0 N1 N1.
have [H1 _ H3] := H W1.
split; first exact: H1.
by move: H3; rewrite !bcastE.
Defined.

(** ** Agreement of the two steps *)

Section Agreement.

Variable R : realFieldType.
Variable threshold : threshold_fn R.
Variables batch neurons : nat.

Lemma relu_nonneg (m n : nat) (A : 'M[R]_(m, n)) : nonneg A -> relu A = A.
Proof. by move=> A0; apply/matrixP => i j; rewrite reluE relu1_id. Qed.

Lemma relu_nonpos (m n : nat) (A : 'M[R]_(m, n)) : nonneg A -> relu (- A) = 0.
Proof.
move=> A0; apply/matrixP => i j.
by rewrite reluE !mxE relu1_0 // oppr_le0.
Qed.

Lemma nonneg_mx1 (n : nat) : nonneg (1%:M : 'M[R]_n).
Proof. by move=> i j; rewrite !mxE; case: (i == j). Qed.

Lemma linear_mx1 (m n : nat) (A : 'M[R]_(m, n)) : linear A 1%:M = A.
Proof. by rewrite /linear trmx1 mulmx1. Qed.

Lemma linear_mx0 (m n k : nat) (A : 'M[R]_(m, n)) :
  linear A (0 : 'M[R]_(k, n)) = 0.
Proof. by rewrite /linear trmx0 mulmx0. Qed.

Lemma linear_0mx (m n k : nat) (W : 'M[R]_(k, n)) :
  linear (0 : 'M[R]_(m, n)) W = 0.
Proof. by rewrite /linear mul0mx. Qed.

(** C9. For an input tensor that is non-negative at every entry, a state
    [(v, g_e, g_i)], a parameter set and [dt]: [coba_lif_step] with the
    identity matrix as input weights, recurrent weights all zero and [z] all
    zero returns the same spikes and the same [v], [g_e] and [g_i] as
    [coba_lif_feed_forward_step] on the feed-forward state [(v, g_e, g_i)]. *)
Theorem feed_forward_agreement
    (x vs ge gi : 'M[R]_(batch, neurons))
    (p : CobaLIFParameters R) (dt : R) :
  nonneg x ->
  let out :=
    coba_lif_step threshold x (mkCobaLIFState 0 vs ge gi) 1%:M 0 p dt in
  let fout :=
    coba_lif_feed_forward_step threshold x
      (mkCobaLIFFeedForwardState vs ge gi) p dt in
  [/\ out.1 = fout.1, v out.2 = ff_v fout.2, g_e out.2 = ff_g_e fout.2
    & g_i out.2 = ff_g_i fout.2].
Proof.
move=> x0 out fout.
have Ee : g_e out.2 = ff_g_e fout.2.
  rewrite /out /fout /coba_lif_step /coba_lif_feed_forward_step /=.
  by rewrite linear_0mx addr0 (relu_nonneg (@nonneg_mx1 _)) linear_mx1
             (relu_nonneg x0).
have Ei : g_i out.2 = ff_g_i fout.2.
  rewrite /out /fout /coba_lif_step /coba_lif_feed_forward_step /=.
  by rewrite linear_0mx addr0 (relu_nonpos (@nonneg_mx1 _)) linear_mx0
             (relu_nonpos x0).
have Ez : out.1 = fout.1.
  by rewrite /out /fout step_spikeE ff_step_spikeE -/out -/fout Ee Ei.
split=> //.
by rewrite /out /fout step_vE ff_step_vE -/out -/fout Ez Ee Ei.
Qed.

End Agreement.

(** One neuron with the input [1]. *)
Lemma feed_forward_agreement_witness :
  let p := default_parameters rat in
  let dt := default_dt rat in
  let out :=
    coba_lif_step (@threshold_fwd rat) (scalar_tensor 1)
      (mkCobaLIFState 0 (scalar_tensor (- 20%:R)) (scalar_tensor 1)
         (scalar_tensor 1)) 1%:M 0 p dt in
  let fout :=
    coba_lif_feed_forward_step (@threshold_fwd rat) (scalar_tensor 1)
      (neuron_ff_state (- 20%:R) 1 1) p dt in
  out.1 = fout.1 /\ v out.2 = ff_v fout.2.
Proof.
move=> p dt out fout.
have N1 : nonneg (scalar_tensor 1) by move=> i j; rewrite bcastE.
have [H1 H2 _ _] :=
  @feed_forward_agreement rat (@threshold_fwd rat) 1 1 (scalar_tensor 1)
    (scalar_tensor (- 20%:R)) (scalar_tensor 1) (scalar_tensor 1) p dt N1.
by split; [exact: H1 | exact: H2].
Defined.

(** ** The numeric scenario *)

Section NumericScenario.

Variable R : realFieldType.
Variable threshold : threshold_fn R.

(** C7. The numeric scenario: [dt = 0.001], [tau_syn_exc_inv = 0.2], zero
    conductances, one neuron, and an input of value [1].  After one
    feed-forward step [g_e] is exactly [1] and [g_i] exactly [0]; so it is
    after one recurrent step with the input weight [1] and the recurrent
    weight [0].  The other parameters, the voltage and the previous spike are
    arbitrary. *)
Theorem numeric_scenario
    (zs vs : R) (ti cm gl eI eE vr vre vt a : R) (m : string) :
  let p := mkCobaLIFParameters (2%:R / 10%:R) ti cm gl eI eE vr vre vt m a in
  let dt := default_dt R in
  let fout :=
    coba_lif_feed_forward_step threshold (bcast 1 1 1)
      (mkCobaLIFFeedForwardState (bcast 1 1 vs) 0 0) p dt in
  let out :=
    coba_lif_step threshold (bcast 1 1 1)
      (mkCobaLIFState (bcast 1 1 zs) (bcast 1 1 vs) 0 0)
      (bcast 1 1 1) 0 p dt in
  [/\ ff_g_e fout.2 ord0 ord0 = 1, ff_g_i fout.2 ord0 ord0 = 0,
      g_e out.2 ord0 ord0 = 1 & g_i out.2 ord0 ord0 = 0].
Proof.
move=> p dt fout out.
have r1 : relu1 (1 : R) = 1 by rewrite relu1_id.
have rN1 : relu1 (- 1 : R) = 0 by rewrite relu1_0 // oppr_le0.
split.
- by rewrite /fout ff_step_g_eE /= !mxE r1; ring.
- by rewrite /fout ff_step_g_iE /= !mxE rN1; ring.
- by rewrite /out step_g_eE !big_ord1 /= !mxE r1 relu1_zero; ring.
- by rewrite /out step_g_iE !big_ord1 /= !mxE rN1 oppr0 relu1_zero; ring.
Qed.

End NumericScenario.

(** ** The default parameters *)

Section DefaultParameters.

Variable R : realFieldType.

(** C8. The default parameters lie in the stated regime: reset below rest,
    threshold above rest, the excitatory reversal potential above rest, the
    inhibitory one below rest, and a strictly positive leak conductance. *)
Theorem default_parameters_regime :
  let p := default_parameters R in
  [/\ v_reset p < v_rest p, v_rest p < v_thresh p,
      v_rest p < e_rev_E p, e_rev_I p < v_rest p & 0 < g_l p].
Proof. by split; rewrite /=; lra. Qed.

End DefaultParameters.
(** ** Further properties of the two steps *)

Section Channels.

Variable R : realFieldType.
Variables thr thr' : threshold_fn R.
Variables batch inputs neurons : nat.

Implicit Types (x : 'M[R]_(batch, inputs)) (st : CobaLIFState R batch neurons).
Implicit Types (W : 'M[R]_(neurons, inputs)) (Wr : 'M[R]_(neurons, neurons)).
Implicit Types (p : CobaLIFParameters R) (dt : R).
Implicit Types (y : 'M[R]_(batch, neurons)).
Implicit Types (fs : CobaLIFFeedForwardState R batch neurons).

Lemma step_g_e_mx x st W Wr p dt :
  g_e (coba_lif_step thr x st W Wr p dt).2
  = g_e st + (- dt * tau_syn_exc_inv p) *: g_e st
    + linear x (relu W) + linear (z st) (relu Wr).
Proof. by []. Qed.

Lemma step_g_i_mx x st W Wr p dt :
  g_i (coba_lif_step thr x st W Wr p dt).2
  = g_i st + (- dt * tau_syn_inh_inv p) *: g_i st
    + linear x (relu (- W)) + linear (z st) (relu (- Wr)).
Proof. by []. Qed.

Lemma ff_step_g_e_mx y fs p dt :
  ff_g_e (coba_lif_feed_forward_step thr y fs p dt).2
  = ff_g_e fs + (- dt * tau_syn_exc_inv p) *: ff_g_e fs + relu y.
Proof. by []. Qed.

Lemma ff_step_g_i_mx y fs p dt :
  ff_g_i (coba_lif_feed_forward_step thr y fs p dt).2
  = ff_g_i fs + (- dt * tau_syn_inh_inv p) *: ff_g_i fs + relu (- y).
Proof. by []. Qed.

Lemma relu1_split (a : R) : relu1 a - relu1 (- a) = a.
Proof.
case: (leP 0 a) => a0.
  by rewrite relu1_id // relu1_0 ?subr0 // oppr_le0.
by rewrite relu1_0 ?(ltW a0) // relu1_id ?oppr_ge0 ?(ltW a0) // sub0r opprK.
Qed.

Lemma relu_split (m n : nat) (M : 'M[R]_(m, n)) : relu M - relu (- M) = M.
Proof. by apply/matrixP => i j; rewrite !mxE relu1_split. Qed.

Lemma linear_relu_split (b k n : nat) (s : 'M[R]_(b, k)) (M : 'M[R]_(n, k)) :
  linear s (relu M) - linear s (relu (- M)) = linear s M.
Proof. by rewrite /linear -mulmxBr -linearB /= relu_split. Qed.

(** X2. Splitting the weights by sign loses nothing: the excitatory
    conductance minus the inhibitory one, as the recurrent step returns them,
    is the difference of the two decayed conductances plus the plain
    projection of the input through [input_weights] and of the spikes [z]
    through [recurrent_weights]; in the feed-forward step it is that
    difference plus the raw input. *)
Theorem net_drive x st W Wr y p dt :
  let fs := mkCobaLIFFeedForwardState (v st) (g_e st) (g_i st) in
  let out := coba_lif_step thr x st W Wr p dt in
  let fout := coba_lif_feed_forward_step thr y fs p dt in
  g_e out.2 - g_i out.2
  = (1 - dt * tau_syn_exc_inv p) *: g_e st
    - (1 - dt * tau_syn_inh_inv p) *: g_i st
    + linear x W + linear (z st) Wr
  /\ ff_g_e fout.2 - ff_g_i fout.2
     = (1 - dt * tau_syn_exc_inv p) *: g_e st
       - (1 - dt * tau_syn_inh_inv p) *: g_i st + y.
Proof.
move=> fs out fout; split.
- rewrite /out step_g_e_mx step_g_i_mx.
  rewrite -(linear_relu_split x W) -(linear_relu_split (z st) Wr).
  move: (linear x (relu W)) (linear x (relu (- W)))
        (linear (z st) (relu Wr)) (linear (z st) (relu (- Wr)))
    => A A' B B'.
  by apply/matrixP => b n; rewrite !mxE; ring.
- rewrite /fout ff_step_g_e_mx ff_step_g_i_mx /= -[in RHS](relu_split y).
  move: (relu y) (relu (- y)) => A A'.
  by apply/matrixP => b n; rewrite !mxE; ring.
Qed.

(** X3. Negating every input and recurrent weight exchanges the two
    conductances: from a state with [g_e] and [g_i] exchanged and parameters
    with the two synaptic time constants exchanged, the recurrent step on the
    negated weights returns as [g_e] what the step on the weights returns as
    [g_i], and as [g_i] what it returns as [g_e], whatever the voltages and
    the threshold functions. *)
Theorem weight_sign_symmetry x (zs vs vs' ge gi : 'M[R]_(batch, neurons))
    W Wr p dt :
  let out := coba_lif_step thr x (mkCobaLIFState zs vs ge gi) W Wr p dt in
  let flipped :=
    coba_lif_step thr' x (mkCobaLIFState zs vs' gi ge) (- W) (- Wr)
      (swap_time_constants p) dt in
  g_e flipped.2 = g_i out.2 /\ g_i flipped.2 = g_e out.2.
Proof.
move=> out flipped.
by rewrite /flipped /out !step_g_e_mx !step_g_i_mx /= !opprK.
Qed.

Lemma linear_combination (b k n : nat) (c : R) (s s' : 'M[R]_(b, k))
    (M : 'M[R]_(n, k)) :
  linear (c *: s + s') M = c *: linear s M + linear s' M.
Proof. by rewrite /linear mulmxDl scalemxAl. Qed.

(** X4. The conductances the recurrent step returns are linear in the
    input, the spikes [z] and the conductances of the state taken together:
    on [c] times a first input and state plus a second, they are [c] times
    those returned for the first plus those returned for the second. *)
Theorem conductances_superpose (c : R)
    (x1 x2 : 'M[R]_(batch, inputs)) (st1 st2 : CobaLIFState R batch neurons)
    (vs : 'M[R]_(batch, neurons)) W Wr p dt :
  let st :=
    mkCobaLIFState (c *: z st1 + z st2) vs
      (c *: g_e st1 + g_e st2) (c *: g_i st1 + g_i st2) in
  let out := coba_lif_step thr (c *: x1 + x2) st W Wr p dt in
  let out1 := coba_lif_step thr x1 st1 W Wr p dt in
  let out2 := coba_lif_step thr x2 st2 W Wr p dt in
  g_e out.2 = c *: g_e out1.2 + g_e out2.2
  /\ g_i out.2 = c *: g_i out1.2 + g_i out2.2.
Proof.
move=> st out out1 out2.
rewrite /out /out1 /out2 !step_g_e_mx !step_g_i_mx /= !linear_combination.
move: (linear x1 (relu W)) (linear x2 (relu W))
      (linear (z st1) (relu Wr)) (linear (z st2) (relu Wr))
      (linear x1 (relu (- W))) (linear x2 (relu (- W)))
      (linear (z st1) (relu (- Wr))) (linear (z st2) (relu (- Wr)))
  => A1 A2 B1 B2 A1' A2' B1' B2'.
by split; apply/matrixP => b n; rewrite !mxE; ring.
Qed.

End Channels.

Section VoltageRange.

Variable R : realFieldType.
Variable threshold : threshold_fn R.
Variables batch inputs neurons : nat.

(** One Euler update of the voltage is a weighted mean of the old voltage
    and the three potentials the conductances pull toward. *)
Lemma euler_entry_range (lo hi k gl ge gi vr eE eI v0 : R) :
  0 <= k -> 0 <= gl -> 0 <= ge -> 0 <= gi ->
  k * (gl + ge + gi) <= 1 ->
  lo <= v0 <= hi -> lo <= vr <= hi -> lo <= eE <= hi -> lo <= eI <= hi ->
  lo <= v0 + k * (gl * (vr - v0) + ge * (eE - v0) + gi * (eI - v0)) <= hi.
Proof.
move=> k0 gl0 ge0 gi0 kG /andP[l0 h0] /andP[l1 h1] /andP[l2 h2] /andP[l3 h3].
have w0 : 0 <= 1 - k * (gl + ge + gi) by rewrite subr_ge0.
apply/andP; split.
- rewrite -subr_ge0.
  have -> : v0 + k * (gl * (vr - v0) + ge * (eE - v0) + gi * (eI - v0)) - lo
    = (1 - k * (gl + ge + gi)) * (v0 - lo) + k * gl * (vr - lo)
      + k * ge * (eE - lo) + k * gi * (eI - lo) by ring.
  by rewrite !addr_ge0 // !mulr_ge0 // subr_ge0.
- rewrite -subr_ge0.
  have -> : hi - (v0 + k * (gl * (vr - v0) + ge * (eE - v0) + gi * (eI - v0)))
    = (1 - k * (gl + ge + gi)) * (hi - v0) + k * gl * (hi - vr)
      + k * ge * (hi - eE) + k * gi * (hi - eI) by ring.
  by rewrite !addr_ge0 // !mulr_ge0 // subr_ge0.
Qed.

Lemma reset_entry_range (lo hi s ve vre : R) :
  0 <= s <= 1 -> lo <= ve <= hi -> lo <= vre <= hi ->
  lo <= (1 - s) * ve + s * vre <= hi.
Proof.
move=> /andP[s0 s1] /andP[l0 h0] /andP[l1 h1].
have t0 : 0 <= 1 - s by rewrite subr_ge0.
apply/andP; split.
- rewrite -subr_ge0.
  have -> : (1 - s) * ve + s * vre - lo
            = (1 - s) * (ve - lo) + s * (vre - lo) by ring.
  by rewrite addr_ge0 // mulr_ge0 // subr_ge0.
- rewrite -subr_ge0.
  have -> : hi - ((1 - s) * ve + s * vre)
            = (1 - s) * (hi - ve) + s * (hi - vre) by ring.
  by rewrite addr_ge0 // mulr_ge0 // subr_ge0.
Qed.

(** X5. The voltage stays in range.  Let [lo] and [hi] bound the voltage of the
    state, the rest potential, the two reversal potentials and the reset
    potential.  At an entry where the conductances the recurrent step returns
    are non-negative, [dt * c_m_inv] and [g_l] are non-negative,
    [dt * c_m_inv * (g_l + g_e + g_i) <= 1] for the returned conductances,
    and the spike lies between [0] and [1], the returned voltage lies between
    [lo] and [hi]. *)
Theorem voltage_stays_in_range
    (x : 'M[R]_(batch, inputs)) (st : CobaLIFState R batch neurons)
    (W : 'M[R]_(neurons, inputs)) (Wr : 'M[R]_(neurons, neurons))
    (p : CobaLIFParameters R) (dt lo hi : R)
    (b : 'I_batch) (n : 'I_neurons) :
  let out := coba_lif_step threshold x st W Wr p dt in
  0 <= dt * c_m_inv p -> 0 <= g_l p ->
  0 <= g_e out.2 b n -> 0 <= g_i out.2 b n ->
  dt * c_m_inv p * (g_l p + g_e out.2 b n + g_i out.2 b n) <= 1 ->
  0 <= out.1 b n <= 1 ->
  lo <= v st b n <= hi -> lo <= v_rest p <= hi ->
  lo <= e_rev_E p <= hi -> lo <= e_rev_I p <= hi ->
  lo <= v_reset p <= hi ->
  lo <= v out.2 b n <= hi.
Proof.
move=> out k0 gl0 ge0 gi0 kG s01 v0 vr eE eI vre.
rewrite /out step_vE -/out mxE; apply: reset_entry_range => //.
by rewrite mxE; apply: euler_entry_range.
Qed.

(** X6. The voltage of the feed-forward step stays in range.  Let [lo] and
    [hi] bound the voltage of the state, the rest potential, the two reversal
    potentials and the reset potential.  At an entry where the conductances
    the feed-forward step returns are non-negative, [dt * c_m_inv] and [g_l]
    are non-negative, [dt * c_m_inv * (g_l + g_e + g_i) <= 1] for the
    returned conductances, and the spike lies between [0] and [1], the
    returned voltage lies between [lo] and [hi]. *)
Theorem ff_voltage_stays_in_range
    (y : 'M[R]_(batch, neurons))
    (fs : CobaLIFFeedForwardState R batch neurons)
    (p : CobaLIFParameters R) (dt lo hi : R)
    (b : 'I_batch) (n : 'I_neurons) :
  let fout := coba_lif_feed_forward_step threshold y fs p dt in
  0 <= dt * c_m_inv p -> 0 <= g_l p ->
  0 <= ff_g_e fout.2 b n -> 0 <= ff_g_i fout.2 b n ->
  dt * c_m_inv p * (g_l p + ff_g_e fout.2 b n + ff_g_i fout.2 b n) <= 1 ->
  0 <= fout.1 b n <= 1 ->
  lo <= ff_v fs b n <= hi -> lo <= v_rest p <= hi ->
  lo <= e_rev_E p <= hi -> lo <= e_rev_I p <= hi ->
  lo <= v_reset p <= hi ->
  lo <= ff_v fout.2 b n <= hi.
Proof.
move=> fout k0 gl0 ge0 gi0 kG s01 v0 vr eE eI vre.
rewrite /fout ff_step_vE -/fout mxE; apply: reset_entry_range => //.
by rewrite mxE; apply: euler_entry_range.
Qed.

End VoltageRange.

(** The spike of the feed-forward step with the forward threshold, in terms
    of the entries of its arguments. *)
Lemma ff_step_fwd_spike_entry (R : realFieldType) (batch neurons : nat)
    (y : 'M[R]_(batch, neurons))
    (fs : CobaLIFFeedForwardState R batch neurons)
    (p : CobaLIFParameters R) (dt : R) b n :
  (coba_lif_feed_forward_step (@threshold_fwd R) y fs p dt).1 b n
  = if 0 <= ff_v fs b n
            + dt * c_m_inv p
              * (g_l p * (v_rest p - ff_v fs b n)
                 + (ff_g_e fs b n + (- dt * tau_syn_exc_inv p) * ff_g_e fs b n
                    + relu1 (y b n)) * (e_rev_E p - ff_v fs b n)
                 + (ff_g_i fs b n + (- dt * tau_syn_inh_inv p) * ff_g_i fs b n
                    + relu1 (- y b n)) * (e_rev_I p - ff_v fs b n))
            - v_thresh p
    then 1 else 0.
Proof.
by rewrite ff_step_fwd_spikeE [(euler_voltage _ _ _ _ _) _ _]mxE
           ff_step_g_eE ff_step_g_iE.
Qed.

(** One neuron with the excitatory conductance [1], under the default
    parameters with [dt = 1/10]: the voltage is driven across the threshold,
    the neuron spikes, and the returned voltage lies between the two reversal
    potentials. *)
Lemma voltage_stays_in_range_witness :
  let p := default_parameters rat in
  let dt : rat := 1 / 10%:R in
  let out :=
    coba_lif_step (@threshold_fwd rat) (scalar_tensor 0)
      (neuron_state 0 (- 20%:R) 1 0) (scalar_tensor 0) (scalar_tensor 0)
      p dt in
  out.1 ord0 ord0 = 1 /\ e_rev_I p <= v out.2 ord0 ord0 <= e_rev_E p.
Proof.
move=> p dt out.
pose g : rat := 49%:R / 50%:R.
have Ege : g_e out.2 ord0 ord0 = g by rewrite /out /p /dt /g; eval_g_e.
have Egi : g_i out.2 ord0 ord0 = 0.
  by rewrite /out /p /dt step_g_iE !big_ord1 /= !mxE; vm_compute.
have Ez : out.1 ord0 ord0 = 1 by rewrite /out /p /dt; eval_spike.
have g0 : 0 <= g by vm_compute.
have z0 : 0 <= (0 : rat) by vm_compute.
have kG : dt * c_m_inv p * (g_l p + g + 0) <= 1 by vm_compute.
have s01 : 0 <= (1 : rat) <= 1 by vm_compute.
have v0 : e_rev_I p <= v (neuron_state 0 (- 20%:R) 1 0) ord0 ord0 <= e_rev_E p.
  by rewrite bcastE; vm_compute.
split; first exact: Ez.
apply: (@voltage_stays_in_range rat (@threshold_fwd rat) 1 1 1
          (scalar_tensor 0) (neuron_state 0 (- 20%:R) 1 0) (scalar_tensor 0)
          (scalar_tensor 0) p dt (e_rev_I p) (e_rev_E p) ord0 ord0 _ _
          (eq_ind_r (fun a : rat => 0 <= a) g0 Ege)
          (eq_ind_r (fun a : rat => 0 <= a) z0 Egi)
          (eq_ind_r (fun a : rat =>
                       dt * c_m_inv p * (g_l p + a + g_i out.2 ord0 ord0) <= 1)
             (eq_ind_r (fun a : rat => dt * c_m_inv p * (g_l p + g + a) <= 1)
                kG Egi) Ege)
          (eq_ind_r (fun a : rat => 0 <= a <= 1) s01 Ez) v0);
  by vm_compute.
Defined.

(** The same neuron in the feed-forward step, with an inhibitory input. *)
Lemma ff_voltage_stays_in_range_witness :
  let p := default_parameters rat in
  let dt : rat := 1 / 20%:R in
  let fout :=
    coba_lif_feed_forward_step (@threshold_fwd rat) (scalar_tensor (- 1))
      (neuron_ff_state (- 20%:R) 1 0) p dt in
  fout.1 ord0 ord0 = 0 /\ e_rev_I p <= ff_v fout.2 ord0 ord0 <= e_rev_E p.
Proof.
move=> p dt fout.
pose g : rat := 99%:R / 100%:R.
have Ege : ff_g_e fout.2 ord0 ord0 = g.
  by rewrite /fout /p /dt /g ff_step_g_eE /= !mxE; vm_compute.
have Egi : ff_g_i fout.2 ord0 ord0 = 1.
  by rewrite /fout /p /dt ff_step_g_iE /= !mxE; vm_compute.
have Ez : fout.1 ord0 ord0 = 0.
  by rewrite /fout /p /dt ff_step_fwd_spike_entry /= !mxE; vm_compute.
have g0 : 0 <= g by vm_compute.
have g1 : 0 <= (1 : rat) by vm_compute.
have kG : dt * c_m_inv p * (g_l p + g + 1) <= 1 by vm_compute.
have s01 : 0 <= (0 : rat) <= 1 by vm_compute.
have v0 : e_rev_I p <= ff_v (neuron_ff_state (- 20%:R) 1 0) ord0 ord0
          <= e_rev_E p.
  by rewrite bcastE; vm_compute.
split; first exact: Ez.
apply: (@ff_voltage_stays_in_range rat (@threshold_fwd rat) 1 1
          (scalar_tensor (- 1)) (neuron_ff_state (- 20%:R) 1 0) p dt
          (e_rev_I p) (e_rev_E p) ord0 ord0 _ _
          (eq_ind_r (fun a : rat => 0 <= a) g0 Ege)
          (eq_ind_r (fun a : rat => 0 <= a) g1 Egi)
          (eq_ind_r (fun a : rat =>
                       dt * c_m_inv p
                       * (g_l p + a + ff_g_i fout.2 ord0 ord0) <= 1)
             (eq_ind_r (fun a : rat => dt * c_m_inv p * (g_l p + g + a) <= 1)
                kG Egi) Ege)
          (eq_ind_r (fun a : rat => 0 <= a <= 1) s01 Ez) v0);
  by vm_compute.
Defined.

Section FreeRun.

Variable R : realFieldType.
Variable threshold : threshold_fn R.
Variables batch inputs neurons : nat.

Implicit Types (st : CobaLIFState R batch neurons).
Implicit Types (p : CobaLIFParameters R) (dt : R).

(** One step without drive at an entry without conductance. *)
Lemma leak_step_entry st p dt b n :
  negative_is_silent threshold ->
  g_e st b n = 0 -> g_i st b n = 0 ->
  0 <= dt * c_m_inv p * g_l p <= 1 ->
  v_rest p < v_thresh p -> v st b n < v_thresh p ->
  let out :=
    coba_lif_step threshold (0 : 'M[R]_(batch, inputs)) st 0 0 p dt in
  [/\ v out.2 b n - v_rest p
      = (1 - dt * c_m_inv p * g_l p) * (v st b n - v_rest p),
      z out.2 b n = 0, g_e out.2 b n = 0, g_i out.2 b n = 0
    & v out.2 b n < v_thresh p].
Proof.
move=> silent ge0 gi0 k01 rest_lt v_lt out.
have Ege : g_e out.2 b n = 0 by rewrite /out step_zero_drive_g_e ge0 mul0r.
have Egi : g_i out.2 b n = 0 by rewrite /out step_zero_drive_g_i gi0 mul0r.
have Eve : euler_voltage p dt (v st) (g_e out.2) (g_i out.2) b n
           = v st b n + dt * c_m_inv p * g_l p * (v_rest p - v st b n).
  exact: euler_voltage_leak.
have btw := relax_between (v st b n) (v_rest p) k01.
have sub := between_lt btw v_lt rest_lt.
have Ez : out.1 b n = 0.
  rewrite /out step_spikeE -/out /spike_output; apply: silent.
  by rewrite mxE Eve subr_lt0.
have Ev : v out.2 b n
          = v st b n + dt * c_m_inv p * g_l p * (v_rest p - v st b n).
  by rewrite /out step_vE -/out mxE Ez Eve subr0 mul1r mul0r addr0.
split=> //; last by rewrite Ev.
by rewrite Ev; ring.
Qed.

(** X7. A neuron left alone relaxes geometrically.  With no input, all
    weights zero, a threshold that is silent at negative arguments, an Euler
    gain [dt * c_m_inv * g_l] in [[0, 1]] and the rest potential below the
    threshold, at an entry without conductance whose voltage is below the
    threshold: after [k] steps, each fed the state the previous one returned,
    the voltage is [v_rest + (1 - dt * c_m_inv * g_l)^k * (v - v_rest)], the
    conductances are still zero, and the last step has emitted no spike. *)
Theorem free_run_voltage st p dt (k : nat) b n :
  negative_is_silent threshold ->
  g_e st b n = 0 -> g_i st b n = 0 ->
  0 <= dt * c_m_inv p * g_l p <= 1 ->
  v_rest p < v_thresh p -> v st b n < v_thresh p ->
  let run := free_run threshold inputs p dt k st in
  [/\ v run b n
      = v_rest p + (1 - dt * c_m_inv p * g_l p) ^+ k * (v st b n - v_rest p),
      (0 < k)%N -> z run b n = 0
    & g_e run b n = 0 /\ g_i run b n = 0].
Proof.
move=> silent ge0 gi0 k01 rest_lt v_lt.
suff: [/\ v (free_run threshold inputs p dt k st) b n - v_rest p
          = (1 - dt * c_m_inv p * g_l p) ^+ k * (v st b n - v_rest p),
          (0 < k)%N -> z (free_run threshold inputs p dt k st) b n = 0,
          g_e (free_run threshold inputs p dt k st) b n = 0,
          g_i (free_run threshold inputs p dt k st) b n = 0
        & v (free_run threshold inputs p dt k st) b n < v_thresh p].
  case=> Ev Ez Ege Egi _ /=; split=> //.
  by rewrite -Ev addrC subrK.
elim: k => [|k [IHv _ IHe IHi IHlt]].
  by rewrite /free_run /= expr0 mul1r.
rewrite /free_run iterS -/(free_run threshold inputs p dt k st).
have [Hv Hz He Hi Hlt] :=
  leak_step_entry silent IHe IHi k01 rest_lt IHlt.
by split=> //; rewrite Hv IHv exprS mulrA.
Qed.

End FreeRun.

(** After two steps at rest under the default parameters with [dt = 1/10],
    the voltage [-30] has covered the part [1 - (7/8)^2] of its distance to
    the rest potential. *)
Lemma free_run_voltage_witness :
  let p := default_parameters rat in
  let dt : rat := 1 / 10%:R in
  let st := neuron_state 0 (- 30%:R) 0 0 in
  let run := free_run (@threshold_fwd rat) 1 p dt 2 st in
  v run ord0 ord0
  = v_rest p + (1 - dt * c_m_inv p * g_l p) ^+ 2 * (v st ord0 ord0 - v_rest p)
  /\ z run ord0 ord0 = 0.
Proof.
move=> p dt st run.
have g0 : g_e st ord0 ord0 = 0 by rewrite bcastE.
have g0' : g_i st ord0 ord0 = 0 by rewrite bcastE.
have k01 : 0 <= dt * c_m_inv p * g_l p <= 1 by vm_compute.
have rest_lt : v_rest p < v_thresh p by vm_compute.
have v_lt : v st ord0 ord0 < v_thresh p by rewrite bcastE; vm_compute.
have [H1 H2 _] :=
  @free_run_voltage rat (@threshold_fwd rat) 1 1 1 st p dt 2 ord0 ord0
    (@threshold_fwd_silent rat) g0 g0' k01 rest_lt v_lt.
by split; [exact: H1 | exact: (H2 isT)].
Defined.

Section Batch.

Variable R : realFieldType.
Variable threshold : threshold_fn R.
Variables batch inputs neurons : nat.

Lemma threshold_fwd_rowwise : rowwise (@threshold_fwd R).
Proof.
move=> m n A s a i; apply/matrixP => i' j.
by rewrite !mxE.
Qed.

(** X8. The elements of a batch do not interact: for a threshold that
    treats the rows of its argument one by one, the recurrent step on row [b]
    of the input and of the state returns row [b] of the spikes and of the
    state that the step returns on the whole batch. *)
Theorem batch_rows_independent
    (x : 'M[R]_(batch, inputs)) (st : CobaLIFState R batch neurons)
    (W : 'M[R]_(neurons, inputs)) (Wr : 'M[R]_(neurons, neurons))
    (p : CobaLIFParameters R) (dt : R) (b : 'I_batch) :
  rowwise threshold ->
  let out := coba_lif_step threshold x st W Wr p dt in
  let out1 := coba_lif_step threshold (row b x) (state_row b st) W Wr p dt in
  out1.1 = row b out.1 /\ out1.2 = state_row b out.2.
Proof.
move=> rw out out1.
have Ege : g_e out1.2 = row b (g_e out.2).
  rewrite /out /out1 !step_g_e_mx /= /linear.
  by rewrite !linearD /= linearZ /= !row_mul.
have Egi : g_i out1.2 = row b (g_i out.2).
  rewrite /out /out1 !step_g_i_mx /= /linear.
  by rewrite !linearD /= linearZ /= !row_mul.
have Eve : euler_voltage p dt (v (state_row b st)) (g_e out1.2) (g_i out1.2)
           = row b (euler_voltage p dt (v st) (g_e out.2) (g_i out.2)).
  by rewrite Ege Egi; apply/matrixP => i j; rewrite !mxE.
have Ez : out1.1 = row b out.1.
  rewrite /out /out1 !step_spikeE -/out -/out1 /spike_output rw Eve.
  by congr (threshold _ _ _); apply/matrixP => i j; rewrite !mxE.
split=> //.
have Ev : v out1.2 = row b (v out.2).
  rewrite /out /out1 !step_vE -/out -/out1 Ez Eve.
  by apply/matrixP => i j; rewrite !mxE.
have Ezs : z out1.2 = row b (z out.2) by exact: Ez.
rewrite /state_row -Ezs -Ev -Ege -Egi.
by case: (out1.2).
Qed.

End Batch.

(** A batch of two, one neuron: the first element alone evolves as it does
    within the batch. *)
Lemma batch_rows_independent_witness :
  let p := default_parameters rat in
  let st :=
    mkCobaLIFState (bcast 2 1 0) (bcast 2 1 (- 20%:R)) (bcast 2 1 1)
      (bcast 2 1 0) in
  let out :=
    coba_lif_step (@threshold_fwd rat) (bcast 2 1 1) st (scalar_tensor 1)
      (scalar_tensor 0) p (default_dt rat) in
  let out1 :=
    coba_lif_step (@threshold_fwd rat) (row ord0 (bcast 2 1 1))
      (state_row ord0 st) (scalar_tensor 1) (scalar_tensor 0) p
      (default_dt rat) in
  out1.1 = row ord0 out.1 /\ out1.2 = state_row ord0 out.2.
Proof.
move=> p st out out1.
exact: (@batch_rows_independent rat (@threshold_fwd rat) 2 1 1
          (bcast 2 1 1) st (scalar_tensor 1) (scalar_tensor 0) p
          (default_dt rat) ord0 (@threshold_fwd_rowwise rat)).
Defined.

Section PureNetworks.

Variable R : realFieldType.
Variable threshold : threshold_fn R.
Variables batch inputs neurons : nat.

Lemma linear_nonneg (b k n : nat) (s : 'M[R]_(b, k)) (M : 'M[R]_(n, k)) :
  nonneg s -> nonneg M -> nonneg (linear s M).
Proof.
move=> s0 M0 i j; rewrite /linear mxE; apply: sumr_ge0 => l _.
by rewrite mxE; apply: mulr_ge0.
Qed.

Lemma linearN (b k n : nat) (s : 'M[R]_(b, k)) (M : 'M[R]_(n, k)) :
  linear s (- M) = - linear s M.
Proof. by rewrite /linear linearN /= mulmxN. Qed.

Lemma nonneg_add (m n : nat) (A B : 'M[R]_(m, n)) :
  nonneg A -> nonneg B -> nonneg (A + B).
Proof. by move=> A0 B0 i j; rewrite mxE addr_ge0. Qed.

Lemma relu_of_nonpos (m n : nat) (A : 'M[R]_(m, n)) :
  nonneg (- A) -> relu A = 0.
Proof. by move=> A0; rewrite -[A]opprK relu_nonpos. Qed.

(** X9. A network of one sign is a feed-forward neuron.  For non-negative
    input and spikes [z], if no entry of [input_weights] and of
    [recurrent_weights] is negative, or none is positive, the recurrent step
    returns the spikes, voltage and conductances that the feed-forward step
    returns on the current [linear x W + linear z W_r] and the state
    [(v, g_e, g_i)]. *)
Theorem one_sign_network
    (x : 'M[R]_(batch, inputs)) (st : CobaLIFState R batch neurons)
    (W : 'M[R]_(neurons, inputs)) (Wr : 'M[R]_(neurons, neurons))
    (p : CobaLIFParameters R) (dt : R) :
  nonneg x -> nonneg (z st) ->
  let fs := mkCobaLIFFeedForwardState (v st) (g_e st) (g_i st) in
  let out := coba_lif_step threshold x st W Wr p dt in
  let fout :=
    coba_lif_feed_forward_step threshold (linear x W + linear (z st) Wr)
      fs p dt in
  (nonneg W /\ nonneg Wr) \/ (nonneg (- W) /\ nonneg (- Wr)) ->
  [/\ out.1 = fout.1, v out.2 = ff_v fout.2, g_e out.2 = ff_g_e fout.2
    & g_i out.2 = ff_g_i fout.2].
Proof.
move=> x0 z0 fs out fout sgn.
have [Ee Ei] : g_e out.2 = ff_g_e fout.2 /\ g_i out.2 = ff_g_i fout.2.
  rewrite /out /fout step_g_e_mx step_g_i_mx ff_step_g_e_mx ff_step_g_i_mx /=.
  case: sgn => [[W0 Wr0]|[W0 Wr0]].
  - have y0 : nonneg (linear x W + linear (z st) Wr).
      by apply: nonneg_add; apply: linear_nonneg.
    rewrite (relu_nonneg W0) (relu_nonneg Wr0) (relu_nonneg y0).
    rewrite (relu_nonpos W0) (relu_nonpos Wr0) (relu_nonpos y0).
    by rewrite !linear_mx0 !addr0 addrA.
  - have y0 : nonneg (- (linear x W + linear (z st) Wr)).
      by rewrite opprD -!linearN; apply: nonneg_add; apply: linear_nonneg.
    rewrite (relu_nonneg W0) (relu_nonneg Wr0) (relu_nonneg y0).
    rewrite (relu_of_nonpos W0) (relu_of_nonpos Wr0) (relu_of_nonpos y0).
    by rewrite !linear_mx0 !addr0 !linearN opprD addrA.
have Ez : out.1 = fout.1.
  by rewrite /out /fout step_spikeE ff_step_spikeE -/out -/fout Ee Ei.
split=> //.
by rewrite /out /fout step_vE ff_step_vE -/out -/fout Ez Ee Ei.
Qed.

End PureNetworks.

(** One excitatory neuron: input [1], spike [1], both weights [1]. *)
Lemma one_sign_network_witness :
  let p := default_parameters rat in
  let st := neuron_state 1 (- 20%:R) 0 0 in
  let out :=
    coba_lif_step (@threshold_fwd rat) (scalar_tensor 1) st
      (scalar_tensor 1) (scalar_tensor 1) p (default_dt rat) in
  let fout :=
    coba_lif_feed_forward_step (@threshold_fwd rat)
      (linear (scalar_tensor 1) (scalar_tensor 1)
       + linear (z st) (scalar_tensor 1))
      (mkCobaLIFFeedForwardState (v st) (g_e st) (g_i st)) p
      (default_dt rat) in
  out.1 = fout.1 /\ v out.2 = ff_v fout.2.
Proof.
move=> p st out fout.
have N1 : nonneg (scalar_tensor 1) by move=> i j; rewrite bcastE.
have [H1 H2 _ _] :=
  @one_sign_network rat (@threshold_fwd rat) 1 1 1 (scalar_tensor 1) st
    (scalar_tensor 1) (scalar_tensor 1) p (default_dt rat) N1 N1
    (or_introl (conj N1 N1)).
by split; [exact: H1 | exact: H2].
Defined.

Section Monotone.

Variable R : realFieldType.
Variable threshold : threshold_fn R.
Variables batch inputs neurons : nat.

Lemma drive_le (k : nat) (s s' : 'M[R]_(batch, k)) (w : 'I_k -> R) b :
  entrywise_le s s' ->
  \sum_j s b j * relu1 (w j) <= \sum_j s' b j * relu1 (w j).
Proof.
move=> ss'; apply: ler_sum => j _.
by apply: ler_wpM2r; [exact: relu1_ge0 | exact: ss'].
Qed.

(** X10. More input never lowers a conductance: if the input, the spikes
    [z] and the two conductances of one state are entry by entry at most
    those of another, and [dt * tau_syn_exc_inv <= 1] and
    [dt * tau_syn_inh_inv <= 1], then both conductances the recurrent step
    returns for the first are entry by entry at most those it returns for the
    second. *)
Theorem more_input_more_conductance
    (x x' : 'M[R]_(batch, inputs)) (st st' : CobaLIFState R batch neurons)
    (W : 'M[R]_(neurons, inputs)) (Wr : 'M[R]_(neurons, neurons))
    (p : CobaLIFParameters R) (dt : R) :
  entrywise_le x x' -> entrywise_le (z st) (z st') ->
  entrywise_le (g_e st) (g_e st') -> entrywise_le (g_i st) (g_i st') ->
  dt * tau_syn_exc_inv p <= 1 -> dt * tau_syn_inh_inv p <= 1 ->
  let out := coba_lif_step threshold x st W Wr p dt in
  let out' := coba_lif_step threshold x' st' W Wr p dt in
  entrywise_le (g_e out.2) (g_e out'.2)
  /\ entrywise_le (g_i out.2) (g_i out'.2).
Proof.
move=> xx' zz' ee' ii' ke ki out out'.
have keep (g g' k : R) : g <= g' -> k <= 1 -> g + (- k) * g <= g' + (- k) * g'.
  by move=> gg' k1; nra.
split=> b n.
- rewrite /out /out' !step_g_eE; set k := dt * tau_syn_exc_inv p in ke *.
  rewrite !(mulNr dt) -/k.
  by do 2![apply: lerD; last exact: drive_le]; apply: keep.
- rewrite /out /out' !step_g_iE; set k := dt * tau_syn_inh_inv p in ki *.
  rewrite !(mulNr dt) -/k.
  by do 2![apply: lerD; last exact: drive_le]; apply: keep.
Qed.

End Monotone.

(** One neuron under the default parameters: raising the input from [0] to
    [1] does not lower a conductance. *)
Lemma more_input_more_conductance_witness :
  let p := default_parameters rat in
  let st := neuron_state 1 (- 20%:R) 1 1 in
  let out :=
    coba_lif_step (@threshold_fwd rat) (scalar_tensor 0) st
      (scalar_tensor 1) (scalar_tensor (- 1)) p (default_dt rat) in
  let out' :=
    coba_lif_step (@threshold_fwd rat) (scalar_tensor 1) st
      (scalar_tensor 1) (scalar_tensor (- 1)) p (default_dt rat) in
  entrywise_le (g_e out.2) (g_e out'.2)
  /\ entrywise_le (g_i out.2) (g_i out'.2).
Proof.
move=> p st out out'.
have x01 : entrywise_le (scalar_tensor 0) (scalar_tensor 1).
  by move=> i j; rewrite !bcastE.
have same (A : 'M[rat]_(1, 1)) : entrywise_le A A by move=> i j.
have ke : default_dt rat * tau_syn_exc_inv p <= 1 by vm_compute.
have ki : default_dt rat * tau_syn_inh_inv p <= 1 by vm_compute.
exact: (@more_input_more_conductance rat (@threshold_fwd rat) 1 1 1
          (scalar_tensor 0) (scalar_tensor 1) st st (scalar_tensor 1)
          (scalar_tensor (- 1)) p (default_dt rat) x01 (same _) (same _)
          (same _) ke ki).
Defined.

Section ZeroTimeStep.

Variable R : realFieldType.
Variable threshold : threshold_fn R.
Variables batch inputs neurons : nat.

(** X11. With [dt = 0] nothing is integrated: the spikes are the threshold
    of the voltage of the state, the returned voltage is that voltage reset
    where it spiked, and the conductances are those of the state plus the
    drive of this step; in both steps. *)
Theorem zero_time_step
    (x : 'M[R]_(batch, inputs)) (st : CobaLIFState R batch neurons)
    (W : 'M[R]_(neurons, inputs)) (Wr : 'M[R]_(neurons, neurons))
    (y : 'M[R]_(batch, neurons))
    (fs : CobaLIFFeedForwardState R batch neurons)
    (p : CobaLIFParameters R) :
  let out := coba_lif_step threshold x st W Wr p 0 in
  let z_new :=
    threshold (v st - bcast _ _ (v_thresh p))
      (method p) (alpha p) in
  let fout := coba_lif_feed_forward_step threshold y fs p 0 in
  let fz_new :=
    threshold (ff_v fs - bcast _ _ (v_thresh p))
      (method p) (alpha p) in
  [/\ out.1 = z_new,
      v out.2 = (bcast _ _ 1 - z_new) .* v st
                + z_new .* bcast _ _ (v_reset p),
      g_e out.2 = g_e st + linear x (relu W) + linear (z st) (relu Wr)
    & g_i out.2
      = g_i st + linear x (relu (- W)) + linear (z st) (relu (- Wr))]
  /\
  [/\ fout.1 = fz_new,
      ff_v fout.2 = (bcast _ _ 1 - fz_new) .* ff_v fs
                    + fz_new .* bcast _ _ (v_reset p),
      ff_g_e fout.2 = ff_g_e fs + relu y
    & ff_g_i fout.2 = ff_g_i fs + relu (- y)].
Proof.
move=> out z_new fout fz_new.
rewrite /out /fout /z_new /fz_new /coba_lif_step /coba_lif_feed_forward_step /=.
by rewrite !oppr0 !mul0r !scale0r !addr0.
Qed.

End ZeroTimeStep.

Section InputAndVoltage.

Variable R : realFieldType.
Variable threshold : threshold_fn R.
Variables batch neurons : nat.

Lemma relu1_le (a a' : R) : a <= a' -> relu1 a <= relu1 a'.
Proof.
by move=> aa'; rewrite /relu1 ge_max le_max aa' /= le_max lexx orbT.
Qed.

Lemma euler_voltage_mono (p : CobaLIFParameters R) (dt : R)
    (vs ge gi ge' gi' : 'M[R]_(batch, neurons)) b n :
  0 <= dt * c_m_inv p -> e_rev_I p <= vs b n <= e_rev_E p ->
  ge b n <= ge' b n -> gi' b n <= gi b n ->
  euler_voltage p dt vs ge gi b n <= euler_voltage p dt vs ge' gi' b n.
Proof.
move=> k0 /andP[vI vE] He Hi.
rewrite !mxE lerD2l; apply: ler_wpM2l => //.
apply: lerD; first rewrite lerD2l.
  by apply: ler_wpM2r => //; rewrite subr_ge0.
by apply: ler_wnM2r => //; rewrite subr_le0.
Qed.

(** X12. In the feed-forward step a larger input entry gives a voltage at
    least as high: for [dt * c_m_inv >= 0] and a voltage between the two
    reversal potentials, the voltage of the Euler update grows weakly with the
    input entry, and so does the returned voltage when neither input makes
    the neuron spike. *)
Theorem input_raises_voltage
    (y y' : 'M[R]_(batch, neurons))
    (fs : CobaLIFFeedForwardState R batch neurons)
    (p : CobaLIFParameters R) (dt : R) (b : 'I_batch) (n : 'I_neurons) :
  y b n <= y' b n ->
  0 <= dt * c_m_inv p ->
  e_rev_I p <= ff_v fs b n <= e_rev_E p ->
  let fout := coba_lif_feed_forward_step threshold y fs p dt in
  let fout' := coba_lif_feed_forward_step threshold y' fs p dt in
  euler_voltage p dt (ff_v fs) (ff_g_e fout.2) (ff_g_i fout.2) b n
  <= euler_voltage p dt (ff_v fs) (ff_g_e fout'.2) (ff_g_i fout'.2) b n
  /\ (fout.1 b n = 0 -> fout'.1 b n = 0 ->
      ff_v fout.2 b n <= ff_v fout'.2 b n).
Proof.
move=> yy' k0 vIE fout fout'.
have He : ff_g_e fout.2 b n <= ff_g_e fout'.2 b n.
  by rewrite /fout /fout' !ff_step_g_eE lerD2l relu1_le.
have Hi : ff_g_i fout'.2 b n <= ff_g_i fout.2 b n.
  by rewrite /fout /fout' !ff_step_g_iE lerD2l relu1_le // lerN2.
have Hve :
  euler_voltage p dt (ff_v fs) (ff_g_e fout.2) (ff_g_i fout.2) b n
  <= euler_voltage p dt (ff_v fs) (ff_g_e fout'.2) (ff_g_i fout'.2) b n.
  exact: euler_voltage_mono.
split=> // z0 z0'.
rewrite /fout /fout' !ff_step_vE -/fout -/fout'.
rewrite ![(reset_voltage _ _ _) _ _]mxE z0 z0'.
by rewrite !subr0 !mul1r !mul0r !addr0.
Qed.

End InputAndVoltage.

(** One neuron at the rest potential under the default parameters: the input
    [1] gives a higher voltage than the input [0]. *)
Lemma input_raises_voltage_witness :
  let p := default_parameters rat in
  let fs := neuron_ff_state (- 20%:R) 0 0 in
  let fout :=
    coba_lif_feed_forward_step (@threshold_fwd rat) (scalar_tensor 0) fs p
      (default_dt rat) in
  let fout' :=
    coba_lif_feed_forward_step (@threshold_fwd rat) (scalar_tensor 1) fs p
      (default_dt rat) in
  euler_voltage p (default_dt rat) (ff_v fs) (ff_g_e fout.2) (ff_g_i fout.2)
    ord0 ord0
  <= euler_voltage p (default_dt rat) (ff_v fs) (ff_g_e fout'.2)
       (ff_g_i fout'.2) ord0 ord0
  /\ scalar_tensor 0 ord0 ord0 <= scalar_tensor 1 ord0 ord0.
Proof.
move=> p fs fout fout'.
have y01 : scalar_tensor 0 ord0 ord0 <= scalar_tensor 1 ord0 ord0.
  by rewrite !bcastE.
have k0 : 0 <= default_dt rat * c_m_inv p by vm_compute.
have vIE : e_rev_I p <= ff_v fs ord0 ord0 <= e_rev_E p.
  by rewrite bcastE; vm_compute.
have [H _] :=
  @input_raises_voltage rat (@threshold_fwd rat) 1 1 (scalar_tensor 0)
    (scalar_tensor 1) fs p (default_dt rat) ord0 ord0 y01 k0 vIE.
by split; [exact: H | exact: y01].
Defined.

(** One neuron with spike [1] and conductances [1] is a spiking state, and
    so is the state the step returns from it. *)
Lemma step_keeps_spiking_state_witness :
  let p := default_parameters rat in
  let st := neuron_state 1 (- 20%:R) 1 1 in
  spiking_state st
  /\ spiking_state
       (coba_lif_step (@threshold_fwd rat) (scalar_tensor 1) st
          (scalar_tensor 1) (scalar_tensor (- 1)) p (default_dt rat)).2.
Proof.
move=> p st.
have N1 : nonneg (scalar_tensor 1) by move=> i j; rewrite bcastE.
have S : spiking_state st.
  by split=> //= b n; right; rewrite bcastE.
have ke : 0 <= default_dt rat * tau_syn_exc_inv p <= 1 by vm_compute.
have ki : 0 <= default_dt rat * tau_syn_inh_inv p <= 1 by vm_compute.
split; first exact: S.
exact: (@step_keeps_spiking_state rat 1 1 1 (scalar_tensor 1) st
          (scalar_tensor 1) (scalar_tensor (- 1)) p (default_dt rat)
          S N1 ke ki).
Defined.

(** Under the default parameters and the default [dt] the voltage [-30]
    relaxes, in a batch of one with one neuron. *)
Lemma default_relaxation_witness :
  let p := default_parameters rat in
  let out :=
    coba_lif_step (@threshold_fwd rat) (0 : 'M[rat]_(1, 1))
      (mkCobaLIFState 0 (scalar_tensor (- 30%:R)) 0 0) 0 0 p
      (default_dt rat) in
  between (scalar_tensor (- 30%:R) ord0 ord0) (v_rest p) (v out.2 ord0 ord0)
  /\ out.1 ord0 ord0 = 0.
Proof.
move=> p out.
have v_lt : scalar_tensor (- 30%:R) ord0 ord0 < v_thresh p.
  by rewrite bcastE; vm_compute.
have [H1 H2 _ _] :=
  @default_relaxation rat (@threshold_fwd rat) 1 1 1 0
    (scalar_tensor (- 30%:R)) ord0 ord0 (@threshold_fwd_silent rat) v_lt.
by split; [exact: H1 | exact: H2].
Defined.

Section FreeRunConductances.

Variable R : realFieldType.
Variable threshold : threshold_fn R.
Variables batch inputs neurons : nat.

(** X13. With no input and all weights zero, after [k] steps, each fed the
    state the previous one returned, the conductances are those of the first
    state times [(1 - dt * tau_syn_exc_inv)^k] and
    [(1 - dt * tau_syn_inh_inv)^k], whatever the voltage does in between. *)
Theorem free_run_conductances (st : CobaLIFState R batch neurons)
    (p : CobaLIFParameters R) (dt : R) (k : nat) :
  let run := free_run threshold inputs p dt k st in
  g_e run = (1 - dt * tau_syn_exc_inv p) ^+ k *: g_e st
  /\ g_i run = (1 - dt * tau_syn_inh_inv p) ^+ k *: g_i st.
Proof.
move=> run; split; apply/matrixP => b n.
- by rewrite /run free_run_g_e mxE mulrC.
- by rewrite /run free_run_g_i mxE mulrC.
Qed.

End FreeRunConductances.
